(** * Thumbnail extraction of the Kiseki shell thumbnail handler

    A shallow embedding of [CKisekiThumb::GetThumbnail]
    (src/thumb_win32.cc, lines 82-199) and the properties of its two stages:
    finding the bytes that follow the [</roblox>] closing tag, and turning
    them into a 24-bit bitmap through the Windows Imaging Component (WIC).

    Conventions.
    - The document buffer ([std::vector<char>]) is a [list byte]; an iterator
      into it is the offset from [begin()], a [nat]; [end()] is the length.
    - [UINT] values are integers in [0, 2^32) with the wrap-around written
      out; an [HRESULT] is a signed integer, negative on failure.
    - Every element access and every iterator the code forms is recorded in
      a trace, so that statements about what is touched can be made about
      the very function that computes the result.
    - WIC and GDI are outside the repository: their methods are the fields
      of a record the development is parameterised by.
    - Where C++ leaves the behaviour undefined (an iterator moved beyond
      [end()]) or leaves a function by an exception (an allocation that
      fails), the outcome says so: [behaviour_of] for the locator,
      [Throwing.GetThumbnail] for the call. *)

From Stdlib Require Import Strings.String Strings.Byte.
From Stdlib Require Import List ZArith Lia Bool Arith.
Import ListNotations.

Set Implicit Arguments.

(** ** Traced computations *)

Module Trace.

(** What the code does to the buffer: it reads the element at an offset,
    or it forms an iterator at an offset. *)
Inductive event : Type :=
| Deref (i : nat)
| Seek (i : nat).

(** A computation returns its value with the events it performed; [None]
    is a loop that ran out of the iterations granted to it. *)
Definition Traced (A : Type) : Type := option (A * list event).

Definition ret {A : Type} (a : A) : Traced A := Some (a, []).

Definition bind {A B : Type} (m : Traced A) (f : A -> Traced B) : Traced B :=
  match m with
  | None => None
  | Some (a, t1) =>
      match f a with
      | None => None
      | Some (b, t2) => Some (b, t1 ++ t2)
      end
  end.

(** [*it] on a [vector<char>] iterator at offset [i]. *)
Definition deref (buffer : list byte) (i : nat) : Traced byte :=
  Some (nth i buffer x00, [Deref i]).

(** An iterator moved to offset [i] ([++it], [std::advance]). *)
Definition seek (i : nat) : Traced nat := Some (i, [Seek i]).

Definition value {A : Type} (m : Traced A) : option A := option_map fst m.
Definition events {A : Type} (m : Traced A) : list event :=
  match m with
  | None => []
  | Some (_, t) => t
  end.

(** An event respects a buffer of [len] elements when a read is at an
    element, and an iterator is at an element or at [end()]. *)
Definition in_bounds (len : nat) (e : event) : Prop :=
  match e with
  | Deref i => i < len
  | Seek i => i <= len
  end.

End Trace.
Import Trace.

Notation "x <- m ;; k" := (bind m (fun x => k))
  (at level 61, m at next level, right associativity).

(** ** The payload locator (lines 100-116) *)

(** [const std::string endTag = "</roblox>"] *)
Definition endTag : list byte := list_byte_of_string "</roblox>"%string.

(** How the comparison of the pattern at one candidate position ends. *)
Inductive cmp_result : Type :=
| Found      (* the pattern was exhausted: [s_it == s_last] *)
| AtEnd      (* the buffer was exhausted first: [it == last] *)
| Differ.    (* two elements differ *)

(** [std::search] as the C++ standard specifies it, in its reference form
    for forward iterators:
<<
    while (true) {
      It1 it = first;
      for (It2 s_it = s_first; ; ++it, ++s_it) {
        if (s_it == s_last) return first;
        if (it == last) return last;
        if (! ( *it == *s_it )) break;
      }
      ++first;
    }
>>
    [match_here] is the inner [for], [search_loop] the outer [while]. *)
Fixpoint match_here (buffer : list byte) (last it : nat) (s : list byte)
  : Traced cmp_result :=
  match s with
  | [] => ret Found
  | c :: s' =>
      if it =? last then ret AtEnd
      else
        b <- deref buffer it ;;
        if Byte.eqb b c then
          it' <- seek (S it) ;;
          match_here buffer last it' s'
        else ret Differ
  end.

Fixpoint search_loop (fuel : nat) (buffer : list byte) (last first : nat)
  (s : list byte) : Traced nat :=
  match fuel with
  | O => None
  | S fuel' =>
      r <- match_here buffer last first s ;;
      match r with
      | Found => ret first
      | AtEnd => ret last
      | Differ =>
          first' <- seek (S first) ;;
          search_loop fuel' buffer last first' s
      end
  end.

(** [std::search(buffer.begin(), buffer.end(), s.begin(), s.end())]: the
    outer loop runs at most once per iterator of [[begin(), end()]]. *)
Definition std_search (buffer s : list byte) : Traced nat :=
  search_loop (S (length buffer)) buffer (length buffer) 0 s.

(** [std::advance(it, n)]: the iterator is moved [n] elements on. The
    language defines this only while the result lies in
    [[begin(), end()]]; the offset formed is recorded in the trace as it
    is, in range or not, and [behaviour] below tells the runs in which it
    is not from those that have a defined result. *)
Definition std_advance (it n : nat) : Traced nat := seek (it + n).

(** [std::vector<unsigned char>(first, buffer.end())]: the range constructor
    reads the [n] elements from [first] on. *)
Fixpoint copy_elements (buffer : list byte) (first n : nat)
  : Traced (list byte) :=
  match n with
  | O => ret []
  | S n' =>
      b <- deref buffer first ;;
      rest <- copy_elements buffer (S first) n' ;;
      ret (b :: rest)
  end.

Definition vector_of_range (buffer : list byte) (first last : nat)
  : Traced (list byte) :=
  copy_elements buffer first (last - first).

(** The two ways the locator gives up; both return [E_FAIL]. *)
Inductive LocateError : Type :=
| TagNotFound   (* line 105: "Closing tag not found" *)
| NoData.       (* line 112: "No data after the closing tag" *)

(** Lines 100-116: search the tag, step over it and one more byte, and
    copy what remains. *)
Definition locate (buffer : list byte) : Traced (LocateError + list byte) :=
  it <- std_search buffer endTag ;;
  if it =? length buffer then ret (inl TagNotFound)
  else
    it <- std_advance it (length endTag + 1) ;;
    if length buffer <=? it then ret (inl NoData)
    else
      jpegData <- vector_of_range buffer it (length buffer) ;;
      ret (inr jpegData).

(** The pattern [s] occurs in [buffer] at offset [k]. *)
Definition occurs_at (s buffer : list byte) (k : nat) : Prop :=
  firstn (length s) (skipn k buffer) = s.

(** [m] is the offset of the first occurrence of [s] in [buffer]. *)
Definition first_occurrence (s buffer : list byte) (m : nat) : Prop :=
  occurs_at s buffer m /\ forall k, k < m -> ~ occurs_at s buffer k.

Definition contains (s buffer : list byte) : Prop :=
  exists k, occurs_at s buffer k.

(** The comparison of [match_here], on the part of the buffer from the
    candidate position on. *)
Fixpoint compare_prefix (suffix s : list byte) {struct s} : cmp_result :=
  match s, suffix with
  | [], _ => Found
  | _ :: _, [] => AtEnd
  | c :: s', b :: suffix' =>
      if Byte.eqb b c then compare_prefix suffix' s' else Differ
  end.

(** What [std::search] returns when started at [first]: the first offset
    from [first] on at which the pattern occurs, or [end()] when there is
    none. *)
Definition search_post (s buffer : list byte) (first m : nat) : Prop :=
  (occurs_at s buffer m /\ first <= m /\
   forall k, first <= k < m -> ~ occurs_at s buffer k)
  \/ (m = length buffer /\ forall k, first <= k -> ~ occurs_at s buffer k).

(** What the locator answers once the first occurrence of the tag is at
    offset [m]. *)
Definition located (buffer : list byte) (m : nat) : LocateError + list byte :=
  if length buffer <=? m + 10 then inl NoData
  else inr (skipn (m + 10) buffer).

(** Occurrences decided by computation. *)
Definition occurs_atb (s buffer : list byte) (k : nat) : bool :=
  match compare_prefix (skipn k buffer) s with
  | Found => true
  | _ => false
  end.

Definition first_occurrenceb (s buffer : list byte) (m : nat) : bool :=
  occurs_atb s buffer m
  && forallb (fun k => negb (occurs_atb s buffer k)) (seq 0 m).

Definition containsb (s buffer : list byte) : bool :=
  existsb (occurs_atb s buffer) (seq 0 (S (length buffer))).

(** ** Defined and undefined behaviour *)

(** [in_bounds], decided. *)
Definition in_boundsb (len : nat) (e : event) : bool :=
  match e with
  | Deref i => i <? len
  | Seek i => i <=? len
  end.

(** What a run on a buffer amounts to: its value, when every element it
    read and every iterator it formed respects the buffer; otherwise the
    behaviour of the program is undefined from the first event that does
    not, and the value computed after it means nothing. *)
Inductive behaviour (A : Type) : Type :=
| Yields (a : A)
| UndefinedBehaviour (e : event).

Arguments Yields {A} a.
Arguments UndefinedBehaviour {A} e.

Definition behaviour_of {A : Type} (len : nat) (m : Traced A)
  : option (behaviour A) :=
  match m with
  | None => None
  | Some (a, t) =>
      match find (fun e => negb (in_boundsb len e)) t with
      | None => Some (Yields a)
      | Some e => Some (UndefinedBehaviour e)
      end
  end.

(** ** Machine integers and result codes *)

Local Open Scope Z_scope.

(** A value of type [UINT]: arithmetic wraps modulo [2^32]. *)
Definition uint (z : Z) : Z := z mod 2 ^ 32.

(** The conversion of a [UINT] to [int] ([thumb.width = width]). *)
Definition to_int (z : Z) : Z := if z <? 2 ^ 31 then z else z - 2 ^ 32.

Definition HRESULT : Type := Z.
Definition S_OK : HRESULT := 0.
Definition S_FALSE : HRESULT := 1.
Definition E_FAIL : HRESULT := -2147467259.        (* 0x80004005 *)
Definition E_INVALIDARG : HRESULT := -2147024809.  (* 0x80070057 *)

Definition SUCCEEDED (hr : HRESULT) : bool := 0 <=? hr.
Definition FAILED (hr : HRESULT) : bool := hr <? 0.

(** [UINT stride = (width * 3 + 3) & ~3;] with [width] a [UINT]: the
    literals are converted to [UINT], so [~3] is [0xFFFFFFFC]. *)
Definition row_stride (width : Z) : Z :=
  Z.land (uint (uint (width * 3) + 3)) (uint (Z.lnot 3)).

(** [height * stride], the argument of [thumb.data.resize]: a [UINT]
    product. *)
Definition buffer_size (height stride : Z) : Z := uint (height * stride).

(** ** The stream the provider was initialised with (lines 86-98) *)

(** What one call of [IStream::Read] answers: a result code and the bytes
    it stored in the chunk. *)
Record ReadAnswer : Type := { read_hr : HRESULT; read_bytes : list byte }.

(** A stream is the answers it has yet to give; once they are used up,
    [Read] reports the end of the stream: [S_FALSE] and no byte. *)
Definition IStream : Type := list ReadAnswer.

(** The [do ... while] loop that drains [_pStream] into [buffer], 4096
    bytes at a time. It returns the last result code, the buffer, and the
    stream as it is left. *)
Fixpoint read_all (pStream : IStream) (buffer : list byte)
  : HRESULT * list byte * IStream :=
  match pStream with
  | [] => (S_FALSE, buffer, [])
  | answer :: rest =>
      let hr := read_hr answer in
      let chunk := firstn 4096 (read_bytes answer) in
      if SUCCEEDED hr && (0 <? length chunk)%nat
      then read_all rest (buffer ++ chunk)
      else (hr, buffer, rest)
  end.

(** ** COM objects and the imaging component *)

(** The interfaces [GetThumbnail] obtains and must release. *)
Inductive interface : Type := Factory | WicStream | Decoder | Frame.

(** How many references of each interface are outstanding. *)
Record COM : Type := {
  factories : nat;
  streams : nat;
  decoders : nat;
  frames : nat
}.

Definition acquire (i : interface) (c : COM) : COM :=
  match i with
  | Factory => {| factories := S (factories c); streams := streams c;
                  decoders := decoders c; frames := frames c |}
  | WicStream => {| factories := factories c; streams := S (streams c);
                    decoders := decoders c; frames := frames c |}
  | Decoder => {| factories := factories c; streams := streams c;
                  decoders := S (decoders c); frames := frames c |}
  | Frame => {| factories := factories c; streams := streams c;
                decoders := decoders c; frames := S (frames c) |}
  end.

(** [p->Release()] *)
Definition release (i : interface) (c : COM) : COM :=
  match i with
  | Factory => {| factories := pred (factories c); streams := streams c;
                  decoders := decoders c; frames := frames c |}
  | WicStream => {| factories := factories c; streams := pred (streams c);
                    decoders := decoders c; frames := frames c |}
  | Decoder => {| factories := factories c; streams := streams c;
                  decoders := pred (decoders c); frames := frames c |}
  | Frame => {| factories := factories c; streams := streams c;
                decoders := decoders c; frames := pred (frames c) |}
  end.

Definition HBITMAP : Type := Z.   (* 0 is the null handle *)

(** The methods of WIC and GDI that [GetThumbnail] calls. A method sees
    the outstanding references and the bytes its object was created from;
    it answers a result code and what it stores through its out
    parameters. [CopyPixels] answers the bytes it writes from the start of
    the destination. *)
Record WIC : Type := {
  CoCreateInstance : COM -> HRESULT;
  CreateStream : COM -> HRESULT;
  InitializeFromMemory : COM -> list byte -> HRESULT;
  CreateDecoderFromStream : COM -> list byte -> HRESULT;
  GetFrame : COM -> list byte -> Z -> HRESULT;
  GetSize : COM -> list byte -> HRESULT * Z * Z;
  CopyPixels : COM -> list byte -> Z -> Z -> HRESULT * list byte;
  CreateBitmap : Z -> Z -> Z -> Z -> list byte -> HBITMAP
}.

(** ** The thumbnail *)

Record Thumbnail : Type := {
  data : list byte;
  width : Z;
  height : Z
}.

Inductive WTS_ALPHATYPE : Type := WTSAT_UNKNOWN | WTSAT_RGB | WTSAT_ARGB.

(** The [return] statements of [GetThumbnail] that report a failure. *)
Inductive exit : Type :=
| AtRead                       (* line 97 *)
| AtLocate (e : LocateError)   (* lines 105 and 112 *)
| AtCoCreateInstance           (* line 123 *)
| AtCreateStream               (* line 131 *)
| AtInitializeFromMemory       (* line 138 *)
| AtCreateDecoderFromStream    (* line 148 *)
| AtGetFrame                   (* line 158 *)
| AtGetSize                    (* line 169 *)
| AtCopyPixels                 (* line 188 *)
| AtCreateBitmap.              (* line 193 *)

(** What a call leaves behind: a failure code and where it was returned,
    or [S_OK] with the bitmap made from [thumb] and the alpha type. *)
Inductive result : Type :=
| Failure (e : exit) (hr : HRESULT)
| Success (thumb : Thumbnail) (phbmp : HBITMAP) (pdwAlpha : WTS_ALPHATYPE).

Definition hresult (r : result) : HRESULT :=
  match r with
  | Failure _ hr => hr
  | Success _ _ _ => S_OK
  end.

(** [jpegData.size()] is a [size_t] passed as the [DWORD] size of
    [InitializeFromMemory]: the stream spans that many bytes of the data. *)
Definition stream_view (jpegData : list byte) : list byte :=
  firstn (Z.to_nat (uint (Z.of_nat (length jpegData)))) jpegData.

(** [thumb.data] after [resize(n)] and a [CopyPixels] that wrote [pixels]
    from its start: [n] bytes, zero where nothing was written. *)
Definition filled (n : nat) (pixels : list byte) : list byte :=
  firstn n pixels ++ repeat x00 (n - length pixels)%nat.

Section Decoder.

Variable wic : WIC.

(** The references held once the frame has been obtained. *)
Definition held (com : COM) : COM :=
  acquire Frame (acquire Decoder (acquire WicStream (acquire Factory com))).

Definition release_all (com : COM) : COM :=
  release Factory (release WicStream (release Decoder (release Frame com))).

(** Lines 118-170: create the factory, the stream over the bytes, the
    decoder and its first frame, and ask the frame for its size. A
    failure releases what was obtained so far; otherwise the [UINT]
    width and height are returned with all four references held. *)
Definition open_frame (jpegData : list byte) (com : COM)
  : (result * COM) + (Z * Z * COM) :=
  let hr := CoCreateInstance wic com in
  if FAILED hr then inl (Failure AtCoCreateInstance hr, com) else
  let com := acquire Factory com in
  let hr := CreateStream wic com in
  if FAILED hr then inl (Failure AtCreateStream hr, release Factory com) else
  let com := acquire WicStream com in
  let image := stream_view jpegData in
  let hr := InitializeFromMemory wic com image in
  if FAILED hr then
    inl (Failure AtInitializeFromMemory hr,
         release Factory (release WicStream com)) else
  let hr := CreateDecoderFromStream wic com image in
  if FAILED hr then
    inl (Failure AtCreateDecoderFromStream hr,
         release Factory (release WicStream com)) else
  let com := acquire Decoder com in
  let hr := GetFrame wic com image 0 in
  if FAILED hr then
    inl (Failure AtGetFrame hr,
         release Factory (release WicStream (release Decoder com))) else
  let com := acquire Frame com in
  let '(hr, w, h) := GetSize wic com image in
  if FAILED hr then inl (Failure AtGetSize hr, release_all com) else
  inr (uint w, uint h, com).

(** Lines 172-199, when [resize] at line 178 obtains its bytes: compute
    the stride, size the buffer, copy the pixels, release the four
    references and make the bitmap. What happens when [resize] throws is
    in [Throwing.copy_frame] below. *)
Definition copy_frame (jpegData : list byte) (w h : Z) (com : COM)
  : result * COM :=
  let stride := row_stride w in
  let size := buffer_size h stride in
  let '(hr, pixels) :=
    CopyPixels wic com (stream_view jpegData) stride size in
  let thumb := {| data := filled (Z.to_nat size) pixels;
                  width := to_int w;
                  height := to_int h |} in
  let com := release_all com in
  if FAILED hr then (Failure AtCopyPixels hr, com) else
  let hbmp := CreateBitmap wic (width thumb) (height thumb) 1 24
                (data thumb) in
  if hbmp =? 0 then (Failure AtCreateBitmap E_FAIL, com) else
  (Success thumb hbmp WTSAT_RGB, com).

(** Lines 118-199: decode the bytes after the tag and make the bitmap. *)
Definition decode (jpegData : list byte) (com : COM) : result * COM :=
  match open_frame jpegData com with
  | inl failure => failure
  | inr (w, h, com') => copy_frame jpegData w h com'
  end.

(** Lines 100-199: the pipeline on a document that has been read. *)
Definition thumbnail_of (buffer : list byte) (com : COM)
  : option (result * COM) :=
  match value (locate buffer) with
  | None => None
  | Some (inl e) => Some (Failure (AtLocate e) E_FAIL, com)
  | Some (inr jpegData) => Some (decode jpegData com)
  end.

(** [CKisekiThumb::GetThumbnail(cx, phbmp, pdwAlpha)] on a provider whose
    [_pStream] is [pStream]. *)
Definition GetThumbnail (cx : Z) (pStream : IStream) (com : COM)
  : option (result * IStream * COM) :=
  let '(hr, buffer, rest) := read_all pStream [] in
  if FAILED hr then Some (Failure AtRead hr, rest, com)
  else
    match thumbnail_of buffer com with
    | None => None
    | Some (r, com') => Some (r, rest, com')
    end.

End Decoder.

(** ** The allocation of the pixel buffer (line 178)

    [thumb.data.resize(height * stride)] is the one allocation whose size
    the payload dictates, through the width and the height its frame
    reports. It obtains the bytes or it throws ([std::bad_alloc],
    [std::length_error]). [GetThumbnail] has no handler: the exception
    leaves the call at line 178, before the [Release] calls of lines
    182-185, and no [HRESULT] is returned. (The buffers of lines 92 and
    116 are no larger than the document read and are filled before any
    reference is taken; they are taken to be obtained.) *)

(** Whether [resize(n)] obtains its [n] bytes in the process as it is at
    the time of a call. *)
Definition Heap : Type := Z -> bool.

(** How a call ends: at a [return] statement, or with the exception of
    [resize(size)]. *)
Inductive completion : Type :=
| Returns (r : result)
| Throws (size : Z).

Module Throwing.

Section Allocation.

Variable heap : Heap.
Variable wic : WIC.

(** Lines 172-199. *)
Definition copy_frame (jpegData : list byte) (w h : Z) (com : COM)
  : completion * COM :=
  let stride := row_stride w in
  let size := buffer_size h stride in
  if heap size then
    let '(r, com') := copy_frame wic jpegData w h com in (Returns r, com')
  else (Throws size, com).

(** Lines 118-199. *)
Definition decode (jpegData : list byte) (com : COM) : completion * COM :=
  match open_frame wic jpegData com with
  | inl (r, com') => (Returns r, com')
  | inr (w, h, com') => copy_frame jpegData w h com'
  end.

(** Lines 100-199. *)
Definition thumbnail_of (buffer : list byte) (com : COM)
  : option (completion * COM) :=
  match value (locate buffer) with
  | None => None
  | Some (inl e) => Some (Returns (Failure (AtLocate e) E_FAIL), com)
  | Some (inr jpegData) => Some (decode jpegData com)
  end.

(** [CKisekiThumb::GetThumbnail(cx, phbmp, pdwAlpha)] on a provider whose
    [_pStream] is [pStream]: how the call ends, the stream as it is left,
    and the references outstanding then. *)
Definition GetThumbnail (cx : Z) (pStream : IStream) (com : COM)
  : option (completion * IStream * COM) :=
  let '(hr, buffer, rest) := read_all pStream [] in
  if FAILED hr then Some (Returns (Failure AtRead hr), rest, com)
  else
    match thumbnail_of buffer com with
    | None => None
    | Some (e, com') => Some (e, rest, com')
    end.

End Allocation.

End Throwing.

(** A process of 32 bits: no vector of [2^31] bytes or more. *)
Definition heap32 : Heap := fun n => n <? 2 ^ 31.

(** ** A stand-in for the imaging component

    To run the pipeline on concrete documents the record [WIC] needs an
    inhabitant. [header_codec] recognises a JPEG by its start-of-image
    marker, reads the dimensions from the first baseline frame header
    ([FF C0], length, precision, height, width) and accepts a destination
    that holds [height] rows of at least [3 * width] bytes; the pixels it
    writes are mid-grey. It never fails for lack of resources. *)

Definition be16 (hi lo : byte) : Z :=
  Z.of_N (Byte.to_N hi) * 256 + Z.of_N (Byte.to_N lo).

(** Width and height when [bytes] start with a baseline frame header. *)
Definition header_here (bytes : list byte) : option (Z * Z) :=
  match bytes with
  | m1 :: m0 :: _ :: _ :: _ :: h1 :: h0 :: w1 :: w0 :: _ =>
      if Byte.eqb m1 xff && Byte.eqb m0 xc0
      then Some (be16 w1 w0, be16 h1 h0)
      else None
  | _ => None
  end.

(** Width and height of the first baseline frame header. *)
Fixpoint frame_header (bytes : list byte) : option (Z * Z) :=
  match header_here bytes with
  | Some size => Some size
  | None =>
      match bytes with
      | [] => None
      | _ :: rest => frame_header rest
      end
  end.

Definition starts_with_soi (bytes : list byte) : bool :=
  match bytes with
  | xff :: xd8 :: _ => true
  | _ => false
  end.

Definition WINCODEC_ERR_COMPONENTNOTFOUND : HRESULT := -2003292336.
Definition WINCODEC_ERR_FRAMEMISSING : HRESULT := -2003292318.
Definition WINCODEC_ERR_INSUFFICIENTBUFFER : HRESULT := -2003292276.

Definition header_codec : WIC := {|
  CoCreateInstance := fun _ => S_OK;
  CreateStream := fun _ => S_OK;
  InitializeFromMemory := fun _ bytes =>
    match bytes with [] => E_INVALIDARG | _ :: _ => S_OK end;
  CreateDecoderFromStream := fun _ bytes =>
    if starts_with_soi bytes then S_OK else WINCODEC_ERR_COMPONENTNOTFOUND;
  GetFrame := fun _ bytes index =>
    match frame_header bytes with
    | Some _ => if index =? 0 then S_OK else WINCODEC_ERR_FRAMEMISSING
    | None => WINCODEC_ERR_FRAMEMISSING
    end;
  GetSize := fun _ bytes =>
    match frame_header bytes with
    | Some (w, h) => (S_OK, w, h)
    | None => (E_FAIL, 0, 0)
    end;
  CopyPixels := fun _ bytes stride size =>
    match frame_header bytes with
    | Some (w, h) =>
        if (3 * w <=? stride) && (stride * h <=? size)
        then (S_OK, repeat x80 (Z.to_nat (stride * h)))
        else (WINCODEC_ERR_INSUFFICIENTBUFFER, [])
    | None => (E_FAIL, [])
    end;
  CreateBitmap := fun w h _ _ _ =>
    if (w <? 0) || (h <? 0) then 0 else 1
|}.

(** No reference outstanding. *)
Definition idle : COM :=
  {| factories := 0; streams := 0; decoders := 0; frames := 0 |}.

(** The start of a baseline JPEG of the given dimensions: start of image
    and frame header for three components. *)
Definition jpeg_header (hi_h lo_h hi_w lo_w : byte) : list byte :=
  [xff; xd8; xff; xc0; x00; x11; x08; hi_h; lo_h; hi_w; lo_w; x03;
   x01; x22; x00; x02; x11; x01; x03; x11; x01].

(** [<roblox>...</roblox>], a null byte, and a 200 x 100 header. *)
Definition sample_document : list byte :=
  list_byte_of_string "<roblox>...</roblox>"%string
    ++ [x00] ++ jpeg_header x00 x64 x00 xc8.

(** [<roblox>...</roblox>], a null byte, and a frame header that declares
    no pixel at all. *)
Definition empty_image_document : list byte :=
  list_byte_of_string "<roblox>...</roblox>"%string
    ++ [x00] ++ jpeg_header x00 x00 x00 x00.

(** The same with a frame header of 65535 x 65535 pixels, whose rows of
    three bytes a pixel take more than [2^32] bytes. *)
Definition huge_image_document : list byte :=
  list_byte_of_string "<roblox>...</roblox>"%string
    ++ [x00] ++ jpeg_header xff xff xff xff.

(** [<roblox>...</roblox>], a null byte, and a 5 x 2 header. *)
Definition small_document : list byte :=
  list_byte_of_string "<roblox>...</roblox>"%string
    ++ [x00] ++ jpeg_header x00 x02 x00 x05.

(** ** Well-formed payloads

    [decodable wic jpeg w h]: the imaging component takes [jpeg] for an
    image of [w] by [h] pixels. Every step up to the frame succeeds, the
    frame reports [w] and [h], its pixels can be copied into any
    destination of [h] rows of at least [3 * w] bytes, and GDI makes a
    bitmap of that size. *)
Record decodable (wic : WIC) (jpeg : list byte) (w h : Z) : Prop := {
  dec_factory : forall com, FAILED (CoCreateInstance wic com) = false;
  dec_stream : forall com, FAILED (CreateStream wic com) = false;
  dec_memory : forall com, FAILED (InitializeFromMemory wic com jpeg) = false;
  dec_decoder :
    forall com, FAILED (CreateDecoderFromStream wic com jpeg) = false;
  dec_frame : forall com, FAILED (GetFrame wic com jpeg 0) = false;
  dec_size :
    forall com, exists hr,
      GetSize wic com jpeg = (hr, w, h) /\ FAILED hr = false;
  dec_pixels :
    forall com stride size,
      3 * w <= stride -> stride * h <= size ->
      FAILED (fst (CopyPixels wic com jpeg stride size)) = false;
  dec_bitmap : forall pixels, CreateBitmap wic w h 1 24 pixels <> 0
}.

(** The imaging component refuses a destination that cannot hold the
    rows of a frame of 24-bit pixels: when [CopyPixels] succeeds on a frame
    that reports [w] by [h] pixels, the stride holds a row, and the buffer
    holds [h - 1] strides and one more row. *)
Definition checks_destination (wic : WIC) : Prop :=
  forall com image stride size hr w h,
    GetSize wic com image = (hr, w, h) ->
    FAILED (fst (CopyPixels wic com image stride size)) = false ->
    3 * uint w <= stride /\ stride * (uint h - 1) + 3 * uint w <= size.

(** The layout of a device-independent bitmap of [w] by [h] pixels, in
    unbounded arithmetic: rows of [(w * 3 + 3) & ~3] bytes, [h] of them. *)
Definition exact_layout (w h : Z) (thumb : Thumbnail) : Prop :=
  row_stride w = Z.land (w * 3 + 3) (Z.lnot 3)
  /\ Z.of_nat (length (data thumb)) = h * Z.land (w * 3 + 3) (Z.lnot 3).

(** * The rest of the component

    The objects around [GetThumbnail] (src/thumb_win32.cc, lines 23-80) and
    the COM server that hosts them (src/thumb_win32_dll.cc). *)

(** ** Reference counts and interface identifiers *)

(** A value of type [long]: 32 bits, two's complement. *)
Definition long (z : Z) : Z := (z + 2 ^ 31) mod 2 ^ 32 - 2 ^ 31.

(** [InterlockedIncrement(&v)] and [InterlockedDecrement(&v)] on a [long]:
    the value stored, which is also the value returned. *)
Definition InterlockedIncrement (v : Z) : Z := long (v + 1).
Definition InterlockedDecrement (v : Z) : Z := long (v - 1).

Definition E_NOINTERFACE : HRESULT := -2147467262.             (* 0x80004002 *)
Definition E_UNEXPECTED : HRESULT := -2147418113.              (* 0x8000FFFF *)
Definition E_OUTOFMEMORY : HRESULT := -2147024882.             (* 0x8007000E *)
Definition CLASS_E_NOAGGREGATION : HRESULT := -2147221232.     (* 0x80040110 *)
Definition CLASS_E_CLASSNOTAVAILABLE : HRESULT := -2147221231. (* 0x80040111 *)

(** The interfaces a caller may ask for. *)
Inductive IID : Type :=
| IID_IUnknown
| IID_IInitializeWithStream
| IID_IThumbnailProvider
| IID_IClassFactory
| IID_other (n : nat).

Definition IID_eqb (a b : IID) : bool :=
  match a, b with
  | IID_IUnknown, IID_IUnknown => true
  | IID_IInitializeWithStream, IID_IInitializeWithStream => true
  | IID_IThumbnailProvider, IID_IThumbnailProvider => true
  | IID_IClassFactory, IID_IClassFactory => true
  | IID_other n, IID_other m => (n =? m)%nat
  | _, _ => false
  end.

(** [QISearch(this, qit, riid, ppv)] of shlwapi, the table-driven
    [QueryInterface]: the interface is found when it is [IUnknown] or an
    entry of the table; the caller's pointer is then set and the object's
    [AddRef] is called, and otherwise the pointer is set to null and the
    answer is [E_NOINTERFACE]. This is whether the interface is found. *)
Definition QISearch (qit : list IID) (riid : IID) : bool :=
  IID_eqb riid IID_IUnknown || existsb (IID_eqb riid) qit.

(** ** The thumbnail provider object (thumb_win32.cc, lines 23-80) *)

Module CKisekiThumb.

(** The data members; [_pStream] is [None] for the null pointer. *)
Record object : Type := { _cRef : Z; _pStream : option IStream }.

(** [CKisekiThumb() : _cRef(1), _pStream(nullptr)] *)
Definition new : object := {| _cRef := 1; _pStream := None |}.

(** The table of [QueryInterface]. *)
Definition qit : list IID := [IID_IInitializeWithStream; IID_IThumbnailProvider].

(** [AddRef]: the new count as a [ULONG], and the object. *)
Definition AddRef (this : object) : Z * object :=
  let c := InterlockedIncrement (_cRef this) in
  (uint c, {| _cRef := c; _pStream := _pStream this |}).

(** [QueryInterface(riid, ppv)]; [*ppv] is set exactly when the answer is
    [S_OK]. *)
Definition QueryInterface (this : object) (riid : IID) : HRESULT * object :=
  if QISearch qit riid then (S_OK, snd (AddRef this))
  else (E_NOINTERFACE, this).

(** [Release]: the new count as a [ULONG]; the object, unless the count
    reached zero and it was deleted; and the stream that the destructor
    released, when the object was deleted while holding one. *)
Definition Release (this : object) : Z * option object * option IStream :=
  let cRef := uint (InterlockedDecrement (_cRef this)) in
  if cRef =? 0 then (cRef, None, _pStream this)
  else (cRef,
        Some {| _cRef := InterlockedDecrement (_cRef this);
                _pStream := _pStream this |},
        None).

(** [Initialize(pStream, grfMode)]. [qi] is what
    [pStream->QueryInterface(&_pStream)] answers: on success it stores the
    stream, with a reference of its own; on failure it stores null. *)
Definition Initialize (this : object) (pStream : IStream) (qi : HRESULT)
  : HRESULT * object :=
  match _pStream this with
  | Some _ => (E_UNEXPECTED, this)
  | None =>
      if SUCCEEDED qi
      then (qi, {| _cRef := _cRef this; _pStream := Some pStream |})
      else (qi, this)
  end.

End CKisekiThumb.

(** [CKisekiThumb_CreateInstance(riid, ppv)]. [alloc] tells whether
    [new (std::nothrow)] returns an object. The answer is the result code,
    whether [*ppv] was set, and the object if it is still alive. *)
Definition CKisekiThumb_CreateInstance (alloc : bool) (riid : IID)
  : HRESULT * bool * option CKisekiThumb.object :=
  if alloc then
    let '(hr, pNew) := CKisekiThumb.QueryInterface CKisekiThumb.new riid in
    let '(_, alive, _) := CKisekiThumb.Release pNew in
    (hr, SUCCEEDED hr, alive)
  else (E_OUTOFMEMORY, false, None).

(** ** The COM server (thumb_win32_dll.cc, lines 9-119) *)

Record GUID : Type := {
  Data1 : Z;
  Data2 : Z;
  Data3 : Z;
  Data4 : list Z
}.

(** [clsid == *pClsid] *)
Definition GUID_eqb (a b : GUID) : bool :=
  (Data1 a =? Data1 b) && (Data2 a =? Data2 b) && (Data3 a =? Data3 b)
  && (if list_eq_dec Z.eq_dec (Data4 a) (Data4 b) then true else false).

Definition CLSID_KisekiThumbHandler : GUID := {|
  Data1 := 0x8ABA9ABD;
  Data2 := 0x829D;
  Data3 := 0x4E87;
  Data4 := [0xAC; 0x2C; 0x4A; 0x62; 0x8A; 0xB7; 0x82; 0x36]
|}.

(** [long g_cRefModule], threaded through the functions that change it. *)
Definition DllAddRef (g_cRefModule : Z) : Z :=
  InterlockedIncrement g_cRefModule.

Definition DllRelease (g_cRefModule : Z) : Z :=
  InterlockedDecrement g_cRefModule.

Definition DllCanUnloadNow (g_cRefModule : Z) : HRESULT :=
  if g_cRefModule =? 0 then S_OK else S_FALSE.

(** What a class of the module is made by. *)
Definition PFNCREATEINSTANCE : Type :=
  bool -> IID -> HRESULT * bool * option CKisekiThumb.object.

Record CLASS_OBJECT_INIT : Type := {
  pClsid : GUID;
  pfnCreate : PFNCREATEINSTANCE
}.

Definition c_rgClassObjectInit : list CLASS_OBJECT_INIT :=
  [{| pClsid := CLSID_KisekiThumbHandler;
      pfnCreate := CKisekiThumb_CreateInstance |}].

Module CClassFactory.

Record object : Type := { _cRef : Z; _pfnCreate : PFNCREATEINSTANCE }.

(** The constructor: one reference, and one more on the module. *)
Definition new (pfnCreate : PFNCREATEINSTANCE) (g_cRefModule : Z)
  : object * Z :=
  ({| _cRef := 1; _pfnCreate := pfnCreate |}, DllAddRef g_cRefModule).

Definition qit : list IID := [IID_IClassFactory].

Definition AddRef (this : object) : Z * object :=
  let c := InterlockedIncrement (_cRef this) in
  (uint c, {| _cRef := c; _pfnCreate := _pfnCreate this |}).

Definition QueryInterface (this : object) (riid : IID) : HRESULT * object :=
  if QISearch qit riid then (S_OK, snd (AddRef this))
  else (E_NOINTERFACE, this).

(** [Release]: the new count, the object unless it was deleted, and the
    module count, which the destructor decrements. *)
Definition Release (this : object) (g_cRefModule : Z)
  : Z * option object * Z :=
  let cRef := InterlockedDecrement (_cRef this) in
  if cRef =? 0 then (uint cRef, None, DllRelease g_cRefModule)
  else (uint cRef,
        Some {| _cRef := cRef; _pfnCreate := _pfnCreate this |},
        g_cRefModule).

(** [CreateInstance(punkOuter, riid, ppv)] of [IClassFactory];
    [punkOuter] is whether the outer unknown is non-null. *)
Definition CreateInstance (this : object) (punkOuter : bool) (alloc : bool)
  (riid : IID) : HRESULT * bool * option CKisekiThumb.object :=
  if punkOuter then (CLASS_E_NOAGGREGATION, false, None)
  else _pfnCreate this alloc riid.

Definition LockServer (fLock : bool) (g_cRefModule : Z) : HRESULT * Z :=
  if fLock then (S_OK, DllAddRef g_cRefModule)
  else (S_OK, DllRelease g_cRefModule).

End CClassFactory.

(** The static [CClassFactory::CreateInstance(clsid, pClassObjectInits,
    cClassObjectInits, riid, ppv)]: the first class of the table with this
    identifier gets a factory. The answer is the result code, whether
    [*ppv] is set, the factory if it is still alive, and the module
    count. *)
Fixpoint CClassFactory_CreateInstance (clsid : GUID)
  (pClassObjectInits : list CLASS_OBJECT_INIT) (riid : IID) (alloc : bool)
  (g_cRefModule : Z) : HRESULT * bool * option CClassFactory.object * Z :=
  match pClassObjectInits with
  | [] => (CLASS_E_CLASSNOTAVAILABLE, false, None, g_cRefModule)
  | init :: rest =>
      if GUID_eqb clsid (pClsid init) then
        if alloc then
          let '(pClassFactory, g) :=
            CClassFactory.new (pfnCreate init) g_cRefModule in
          let '(hr, pClassFactory) :=
            CClassFactory.QueryInterface pClassFactory riid in
          let '(_, alive, g) := CClassFactory.Release pClassFactory g in
          (hr, SUCCEEDED hr, alive, g)
        else (E_OUTOFMEMORY, false, None, g_cRefModule)
      else
        CClassFactory_CreateInstance clsid rest riid alloc g_cRefModule
  end.

Definition DllGetClassObject (clsid : GUID) (riid : IID) (alloc : bool)
  (g_cRefModule : Z) : HRESULT * bool * option CClassFactory.object * Z :=
  CClassFactory_CreateInstance clsid c_rgClassObjectInit riid alloc
    g_cRefModule.

(** The module count after a run of [LockServer] calls. *)
Fixpoint lock_all (locks : list bool) (g_cRefModule : Z) : Z :=
  match locks with
  | [] => g_cRefModule
  | fLock :: rest =>
      lock_all rest (snd (CClassFactory.LockServer fLock g_cRefModule))
  end.

(** [n] calls of [AddRef]. *)
Fixpoint add_refs (n : nat) (this : CKisekiThumb.object)
  : CKisekiThumb.object :=
  match n with
  | O => this
  | S n' => add_refs n' (snd (CKisekiThumb.AddRef this))
  end.

(** [n] calls of [Release], as long as the object is alive: the object if
    it survives them, and the streams its destructor released. *)
Fixpoint release_refs (n : nat) (this : CKisekiThumb.object)
  : option CKisekiThumb.object * list IStream :=
  match n with
  | O => (Some this, [])
  | S n' =>
      match CKisekiThumb.Release this with
      | (_, Some this', _) => release_refs n' this'
      | (_, None, Some pStream) => (None, [pStream])
      | (_, None, None) => (None, [])
      end
  end.

(** ** Registration (thumb_win32_dll.cc, lines 121-234) *)

(** [HRESULT_FROM_WIN32(x)] of winerror.h: a value that is not positive
    is kept, a positive one becomes a failure code of the Win32 facility,
    [(x & 0xFFFF) | 0x80070000]. *)
Definition HRESULT_FROM_WIN32 (x : Z) : HRESULT :=
  if x <=? 0 then x
  else long (Z.lor (Z.land x 0xFFFF) 0x80070000).

Definition ERROR_SUCCESS : Z := 0.
Definition ERROR_FILE_NOT_FOUND : Z := 2.
Definition REG_SZ : Z := 1.
Definition REG_DWORD : Z := 4.
Definition HKEY_CURRENT_USER : Z := 0x80000001.

Definition SZ_CLSID_KISEKITHUMBHANDLER : string :=
  "{8ABA9ABD-829D-4E87-AC2C-4A628AB78236}"%string.
Definition SZ_KISEKITHUMBHANDLER : string :=
  "Kiseki Thumbnail Handler"%string.

(** The null pointer is [None]. *)
Record REGISTRY_ENTRY : Type := {
  hkeyRoot : Z;
  pszKeyName : string;
  pszValueName : option string;
  dwValueType : Z;
  pszData : option string;
  dwData : Z
}.

(** What [lpData] points to: a wide string, or the four bytes of a
    [DWORD]. *)
Inductive value_data : Type :=
| wide_string (s : string)
| dword_bytes (d : Z).

(** The calls the server makes to the registry and the shell. A key
    handle is named by the root and the key it was opened for. *)
Inductive call : Type :=
| RegCreateKeyExW (root : Z) (key : string)
| RegSetValueExW (root : Z) (key : string) (valueName : option string)
    (type : Z) (lpData : value_data) (size : Z)
| RegCloseKey (root : Z) (key : string)
| RegDeleteTreeW (root : Z) (key : string)
| SHChangeNotify_ASSOCCHANGED.

(** The system the server runs in: the status the registry answers to a
    call after the calls made before it, the length
    [GetModuleFileNameW] returns with the name it stores, and what
    [GetLastError] returns. *)
Record Win32 : Type := {
  reg_status : list call -> call -> Z;
  GetModuleFileNameW : Z * string;
  GetLastError : Z
}.

(** How a function ends: it returns a result code, or it reads through
    the null pointer. *)
Inductive outcome : Type :=
| Returned (hr : HRESULT)
| NullDereference.

Section Registry.

Variable sys : Win32.

(** [RegSetValueExW] followed by [RegCloseKey] (lines 161-164). *)
Definition set_value_and_close (e : REGISTRY_ENTRY) (lpData : value_data)
  (size : Z) (made : list call) : outcome * list call :=
  let c :=
    RegSetValueExW (hkeyRoot e) (pszKeyName e) (pszValueName e)
      (dwValueType e) lpData size in
  (Returned (HRESULT_FROM_WIN32 (reg_status sys made c)),
   made ++ [c; RegCloseKey (hkeyRoot e) (pszKeyName e)]).

(** [CreateRegKeyAndSetValue(pRegistryEntry)], after the calls [made]:
    how it ends, and the calls made by then. The size of a string is
    [((DWORD)wcslen(pszData) + 1) * sizeof(WCHAR)] stored in a [DWORD]. *)
Definition CreateRegKeyAndSetValue (e : REGISTRY_ENTRY) (made : list call)
  : outcome * list call :=
  let c := RegCreateKeyExW (hkeyRoot e) (pszKeyName e) in
  let hr := HRESULT_FROM_WIN32 (reg_status sys made c) in
  let made := made ++ [c] in
  if SUCCEEDED hr then
    if dwValueType e =? REG_SZ then
      match pszData e with
      | None => (NullDereference, made)
      | Some s =>
          let size :=
            uint (uint (uint (Z.of_nat (String.length s)) + 1) * 2) in
          set_value_and_close e (wide_string s) size made
      end
    else if dwValueType e =? REG_DWORD then
      set_value_and_close e (dword_bytes (uint (dwData e))) 4 made
    else (Returned E_INVALIDARG, made)
  else (Returned hr, made).

(** The table of [DllRegisterServer], for a module of the given name. *)
Definition rgRegistryEntries (szModuleName : string) : list REGISTRY_ENTRY :=
  [ {| hkeyRoot := HKEY_CURRENT_USER;
       pszKeyName :=
         "Software\Classes\CLSID\{8ABA9ABD-829D-4E87-AC2C-4A628AB78236}"%string;
       pszValueName := None; dwValueType := REG_SZ;
       pszData := Some SZ_KISEKITHUMBHANDLER; dwData := 0 |};
    {| hkeyRoot := HKEY_CURRENT_USER;
       pszKeyName :=
         "Software\Classes\CLSID\{8ABA9ABD-829D-4E87-AC2C-4A628AB78236}\InProcServer32"%string;
       pszValueName := None; dwValueType := REG_SZ;
       pszData := Some szModuleName; dwData := 0 |};
    {| hkeyRoot := HKEY_CURRENT_USER;
       pszKeyName :=
         "Software\Classes\CLSID\{8ABA9ABD-829D-4E87-AC2C-4A628AB78236}\InProcServer32"%string;
       pszValueName := Some "ThreadingModel"%string; dwValueType := REG_SZ;
       pszData := Some "Apartment"%string; dwData := 0 |};
    {| hkeyRoot := HKEY_CURRENT_USER;
       pszKeyName := "Software\Classes\.rbxl\"%string;
       pszValueName := Some "Treatment"%string; dwValueType := REG_DWORD;
       pszData := None; dwData := 0 |};
    {| hkeyRoot := HKEY_CURRENT_USER;
       pszKeyName :=
         "Software\Classes\.rbxl\ShellEx\{e357fccd-a995-4576-b01f-234630154e96}"%string;
       pszValueName := None; dwValueType := REG_SZ;
       pszData := Some SZ_CLSID_KISEKITHUMBHANDLER; dwData := 0 |} ].

(** The loop of [DllRegisterServer]:
    [for (i = 0; i < ARRAYSIZE(rgRegistryEntries) && SUCCEEDED(hr); i++)]. *)
Fixpoint register_entries (entries : list REGISTRY_ENTRY) (hr : HRESULT)
  (made : list call) : outcome * list call :=
  match entries with
  | [] => (Returned hr, made)
  | e :: rest =>
      if SUCCEEDED hr then
        match CreateRegKeyAndSetValue e made with
        | (Returned hr', made') => register_entries rest hr' made'
        | (NullDereference, made') => (NullDereference, made')
        end
      else (Returned hr, made)
  end.

Definition DllRegisterServer : outcome * list call :=
  let '(n, szModuleName) := GetModuleFileNameW sys in
  let '(ended, made) :=
    if n =? 0 then (Returned (HRESULT_FROM_WIN32 (GetLastError sys)), [])
    else register_entries (rgRegistryEntries szModuleName) S_OK [] in
  match ended with
  | Returned hr =>
      if SUCCEEDED hr then (Returned hr, made ++ [SHChangeNotify_ASSOCCHANGED])
      else (Returned hr, made)
  | NullDereference => (NullDereference, made)
  end.

(** The keys of [DllUnregisterServer]. *)
Definition rgpszKeys : list string :=
  [ "Software\Classes\CLSID\{8ABA9ABD-829D-4E87-AC2C-4A628AB78236}"%string;
    "Software\Classes\.rbxl\ShellEx\{e357fccd-a995-4576-b01f-234630154e96}"%string ].

(** The loop of [DllUnregisterServer]. *)
Fixpoint delete_keys (keys : list string) (hr : HRESULT) (made : list call)
  : HRESULT * list call :=
  match keys with
  | [] => (hr, made)
  | key :: rest =>
      if SUCCEEDED hr then
        let c := RegDeleteTreeW HKEY_CURRENT_USER key in
        let hr := HRESULT_FROM_WIN32 (reg_status sys made c) in
        let hr :=
          if hr =? HRESULT_FROM_WIN32 ERROR_FILE_NOT_FOUND then S_OK else hr in
        delete_keys rest hr (made ++ [c])
      else (hr, made)
  end.

Definition DllUnregisterServer : HRESULT * list call :=
  delete_keys rgpszKeys S_OK [].

End Registry.

(** The handles of [calls] that were opened and not closed: each
    [RegCreateKeyExW] that succeeded under [sys] opens one, each
    [RegCloseKey] closes one. [before] is the calls made before them. *)
Fixpoint open_handles (sys : Win32) (before calls : list call) (n : Z) : Z :=
  match calls with
  | [] => n
  | c :: rest =>
      let n' :=
        match c with
        | RegCreateKeyExW _ _ =>
            if SUCCEEDED (HRESULT_FROM_WIN32 (reg_status sys before c))
            then n + 1 else n
        | RegCloseKey _ _ => n - 1
        | _ => n
        end in
      open_handles sys (before ++ [c]) rest n'
  end.

(** A system in which every call succeeds. *)
Definition obliging (szModuleName : string) : Win32 := {|
  reg_status := fun _ _ => ERROR_SUCCESS;
  GetModuleFileNameW :=
    (Z.of_nat (String.length szModuleName), szModuleName);
  GetLastError := 0
|}.

(** A system whose registry holds none of the keys and refuses to make
    any. *)
Definition bare : Win32 := {|
  reg_status := fun _ c =>
    match c with
    | RegDeleteTreeW _ _ => ERROR_FILE_NOT_FOUND
    | _ => 5
    end;
  GetModuleFileNameW := (12, "C:\thumb.dll"%string);
  GetLastError := 0
|}.

(** ** Vocabulary for the stream and the trace *)

(** A read that delivers a chunk: it succeeds with 1 to 4096 bytes. *)
Definition delivers (a : ReadAnswer) : bool :=
  SUCCEEDED (read_hr a)
  && (0 <? length (read_bytes a))%nat
  && (length (read_bytes a) <=? 4096)%nat.

(** A read that ends the loop: it fails, or it stores no byte. *)
Definition ends_reading (a : ReadAnswer) : bool :=
  negb (SUCCEEDED (read_hr a)) || (length (read_bytes a) =? 0)%nat.

(** The bytes a run of reads delivers, in order. *)
Definition delivered (answers : list ReadAnswer) : list byte :=
  concat (map read_bytes answers).

(** How many elements a trace reads. *)
Definition reads (t : list event) : nat :=
  length (filter (fun e => match e with Deref _ => true | Seek _ => false end)
            t).

(** The data and the size that [CreateRegKeyAndSetValue] computes for an
    entry, when its type is one it supports and its string is not null. *)
Definition entry_value (e : REGISTRY_ENTRY) : option (value_data * Z) :=
  if dwValueType e =? REG_SZ then
    match pszData e with
    | Some s =>
        Some (wide_string s,
              uint (uint (uint (Z.of_nat (String.length s)) + 1) * 2))
    | None => None
    end
  else if dwValueType e =? REG_DWORD then
    Some (dword_bytes (uint (dwData e)), 4)
  else None.

(** The calls made for an entry when the registry accepts them: the key
    is created, and for an entry with a value the value is set and the
    key closed. *)
Definition entry_calls (e : REGISTRY_ENTRY) : list call :=
  RegCreateKeyExW (hkeyRoot e) (pszKeyName e)
  :: match entry_value e with
     | Some (lpData, size) =>
         [ RegSetValueExW (hkeyRoot e) (pszKeyName e) (pszValueName e)
             (dwValueType e) lpData size;
           RegCloseKey (hkeyRoot e) (pszKeyName e) ]
     | None => []
     end.

(** The calls of a registration in which nothing fails. *)
Definition registration (szModuleName : string) : list call :=
  concat (map entry_calls (rgRegistryEntries szModuleName)).

(** The key lies in one of the trees that unregistration deletes: it is
    the root of the tree or a key below it. *)
Definition unregistered (key : string) : bool :=
  existsb (fun tree =>
             String.eqb tree key || String.prefix (tree ++ "\") key)
    rgpszKeys.

(** The calls whose status [CreateRegKeyAndSetValue] looks at. *)
Definition status_checked (c : call) : bool :=
  match c with
  | RegCreateKeyExW _ _ => true
  | RegSetValueExW _ _ _ _ _ _ => true
  | _ => false
  end.

(** The first of [calls], made in order after the calls [before], whose
    status is looked at and is not [ERROR_SUCCESS]: its position in
    [calls] and its status. *)
Fixpoint first_refusal (sys : Win32) (before calls : list call)
  : option (nat * Z) :=
  match calls with
  | [] => None
  | c :: rest =>
      if status_checked c && negb (reg_status sys before c =? ERROR_SUCCESS)
      then Some (O, reg_status sys before c)
      else
        match first_refusal sys (before ++ [c]) rest with
        | Some (i, status) => Some (S i, status)
        | None => None
        end
  end.

(** The calls of [calls] up to the one at position [i], and the
    [RegCloseKey] that comes next, if that is what comes next. *)
Definition through_close (i : nat) (calls : list call) : list call :=
  firstn (S i) calls
  ++ match nth_error calls (S i) with
     | Some (RegCloseKey root key) => [RegCloseKey root key]
     | _ => []
     end.

(** A registry in which keys can be made but no value can be set. *)
Definition no_values : Win32 := {|
  reg_status := fun _ c =>
    match c with
    | RegSetValueExW _ _ _ _ _ _ => 5
    | _ => ERROR_SUCCESS
    end;
  GetModuleFileNameW := (12, "C:\thumb.dll"%string);
  GetLastError := 0
|}.

(** A registry that denies every call (5 is [ERROR_ACCESS_DENIED]). *)
Definition denying : Win32 := {|
  reg_status := fun _ _ => 5;
  GetModuleFileNameW := (12, "C:\thumb.dll"%string);
  GetLastError := 0
|}.


(** A stream that hands over [small_document] in one read. *)
Definition small_answers : IStream :=
  [{| read_hr := S_OK; read_bytes := small_document |}].

(** * Properties of the locator *)

Local Close Scope Z_scope.

Section ListFacts.

Variable A : Type.

Lemma skipn_nth_cons (d : A) (l : list A) (i : nat) :
  i < length l -> skipn i l = nth i l d :: skipn (S i) l.
Proof.
  revert i; induction l as [|a l IH]; intros [|i] Hi; simpl in *;
    try lia; auto.
  rewrite (IH i) by lia. reflexivity.
Qed.

Lemma firstn_short_neq (l s : list A) :
  length l < length s -> firstn (length s) l <> s.
Proof.
  intros Hlt Heq.
  assert (Hlen : length (firstn (length s) l) = length s) by (f_equal; exact Heq).
  rewrite length_firstn in Hlen. lia.
Qed.

Lemma firstn_app_exact (l r : list A) :
  firstn (length l) (l ++ r) = l.
Proof.
  rewrite firstn_app, Nat.sub_diag, firstn_all. simpl. apply app_nil_r.
Qed.

Lemma skipn_app_exact (l r : list A) :
  skipn (length l) (l ++ r) = r.
Proof.
  rewrite skipn_app, Nat.sub_diag, skipn_all. reflexivity.
Qed.

End ListFacts.

Lemma byte_eqb_eq (a b : byte) : Byte.eqb a b = true <-> a = b.
Proof.
  split; [apply Byte.byte_dec_bl | apply Byte.byte_dec_lb].
Qed.

Lemma compare_prefix_found (s suffix : list byte) :
  compare_prefix suffix s = Found <-> firstn (length s) suffix = s.
Proof.
  revert suffix; induction s as [|c s IH]; intros [|b suffix]; simpl;
    try (split; [reflexivity | reflexivity]);
    try (split; discriminate).
  destruct (Byte.eqb b c) eqn:E.
  - apply byte_eqb_eq in E; subst b. rewrite IH.
    split; [intros ->; reflexivity | intros H; injection H; auto].
  - split; [discriminate|].
    intros H; injection H as -> _.
    assert (Byte.eqb c c = true) by (apply byte_eqb_eq; reflexivity).
    congruence.
Qed.

Lemma compare_prefix_at_end (s suffix : list byte) :
  compare_prefix suffix s = AtEnd -> length suffix < length s.
Proof.
  revert suffix; induction s as [|c s IH]; intros [|b suffix]; simpl;
    try discriminate; try lia.
  destruct (Byte.eqb b c); [|discriminate].
  intros H; apply IH in H; lia.
Qed.

Lemma compare_prefix_differ (s suffix : list byte) :
  compare_prefix suffix s = Differ ->
  suffix <> [] /\ firstn (length s) suffix <> s.
Proof.
  intros H; split.
  - destruct suffix; [destruct s; discriminate | discriminate].
  - intros Heq; apply compare_prefix_found in Heq; congruence.
Qed.

Lemma in_bounds_le (a b : nat) (e : event) :
  a <= b -> in_bounds a e -> in_bounds b e.
Proof. destruct e; simpl; lia. Qed.

Lemma Forall_in_bounds_le (a b : nat) (t : list event) :
  a <= b -> Forall (in_bounds a) t -> Forall (in_bounds b) t.
Proof.
  intros Hle. apply Forall_impl. intros e. apply in_bounds_le; assumption.
Qed.

(** [match_here] computes [compare_prefix]; it touches the buffer only
    within its bounds, and no further than the pattern reaches. *)
Lemma match_here_run (buffer s : list byte) (it : nat) :
  it <= length buffer ->
  exists t,
    match_here buffer (length buffer) it s
      = Some (compare_prefix (skipn it buffer) s, t)
    /\ Forall (in_bounds (Nat.min (length buffer) (it + length s))) t.
Proof.
  revert it; induction s as [|c s IH]; intros it Hit; simpl.
  - exists []; split; [reflexivity | constructor].
  - destruct (it =? length buffer) eqn:E.
    + apply Nat.eqb_eq in E; subst it.
      rewrite skipn_all. exists []; split; [reflexivity | constructor].
    + apply Nat.eqb_neq in E.
      assert (Hlt : it < length buffer) by lia.
      rewrite (skipn_nth_cons x00 buffer Hlt).
      unfold deref; simpl.
      destruct (Byte.eqb (nth it buffer x00) c).
      * destruct (IH (S it) Hlt) as (t & Ht & Hb).
        simpl. rewrite Ht. eexists; split; [reflexivity|].
        constructor; [simpl; lia|].
        constructor; [simpl; lia|].
        replace (it + S (length s)) with (S it + length s) by lia.
        exact Hb.
      * eexists; split; [reflexivity|].
        constructor; [simpl; lia | constructor].
Qed.

Lemma search_loop_run (buffer s : list byte) (fuel first : nat) :
  first <= length buffer ->
  length buffer - first < fuel ->
  exists m t,
    search_loop fuel buffer (length buffer) first s = Some (m, t)
    /\ Forall (in_bounds (Nat.min (length buffer) (m + length s))) t
    /\ first <= m <= length buffer
    /\ search_post s buffer first m.
Proof.
  revert first; induction fuel as [|fuel IH]; intros first Hle Hfuel;
    [lia|].
  simpl.
  destruct (match_here_run buffer s Hle) as (t & Ht & Hb).
  rewrite Ht; simpl.
  destruct (compare_prefix (skipn first buffer) s) eqn:E.
  - (* found here *)
    exists first, (t ++ []).
    split; [reflexivity|]. split; [rewrite app_nil_r; assumption|].
    split; [lia|].
    left. split; [apply compare_prefix_found; assumption|].
    split; [lia|]. intros k Hk; lia.
  - (* the buffer ends inside the pattern *)
    exists (length buffer), (t ++ []).
    split; [reflexivity|].
    split.
    { rewrite app_nil_r. revert Hb. apply Forall_in_bounds_le. lia. }
    split; [lia|].
    right; split; [reflexivity|].
    intros k Hk. apply firstn_short_neq.
    apply compare_prefix_at_end in E.
    rewrite length_skipn in *. lia.
  - (* mismatch: try the next position *)
    apply compare_prefix_differ in E as [Hne Hno].
    assert (Hlt : first < length buffer).
    { destruct (Nat.lt_ge_cases first (length buffer)) as [|Hge]; auto.
      rewrite skipn_all2 in Hne by assumption. congruence. }
    destruct (IH (S first)) as (m & t' & Hrun & Hb' & Hm & Hpost); try lia.
    rewrite Hrun.
    exists m, (t ++ Seek (S first) :: t').
    split; [reflexivity|].
    split.
    { apply Forall_app; split.
      - revert Hb. apply Forall_in_bounds_le. lia.
      - constructor; [simpl; lia | assumption]. }
    split; [lia|].
    destruct Hpost as [(Hocc & Hfm & Hmin) | (-> & Hnone)].
    + left. split; [assumption|]. split; [lia|].
      intros k Hk.
      destruct (Nat.eq_dec k first) as [->|]; [exact Hno|].
      apply Hmin; lia.
    + right; split; [reflexivity|].
      intros k Hk.
      destruct (Nat.eq_dec k first) as [->|]; [exact Hno|].
      apply Hnone; lia.
Qed.

Lemma occurs_at_bound (s buffer : list byte) (k : nat) :
  occurs_at s buffer k -> s <> [] -> k + length s <= length buffer.
Proof.
  unfold occurs_at; intros H Hs.
  assert (Hlen : length (firstn (length s) (skipn k buffer)) = length s)
    by (rewrite H; reflexivity).
  rewrite length_firstn, length_skipn in Hlen.
  assert (length s <> 0) by (destruct s; simpl; congruence).
  lia.
Qed.

(** [std::search] always returns, finds the first occurrence, and reads
    within the buffer and not beyond the occurrence it finds. *)
Lemma std_search_run (buffer s : list byte) :
  s <> [] ->
  exists m t,
    std_search buffer s = Some (m, t)
    /\ Forall (in_bounds (Nat.min (length buffer) (m + length s))) t
    /\ ((first_occurrence s buffer m /\ m + length s <= length buffer)
        \/ (m = length buffer /\ ~ contains s buffer)).
Proof.
  intros Hs. unfold std_search.
  destruct (@search_loop_run buffer s (S (length buffer)) 0)
    as (m & t & Hrun & Hb & Hm & Hpost); try lia.
  exists m, t. split; [assumption|]. split; [assumption|].
  destruct Hpost as [(Hocc & _ & Hmin) | (-> & Hnone)].
  - left; split.
    + split; auto. intros k Hk; apply Hmin; lia.
    + apply occurs_at_bound; assumption.
  - right; split; [reflexivity|].
    intros (k & Hk). apply (Hnone k); [lia | assumption].
Qed.

(** The range constructor reads the elements of the range and no other. *)
Lemma copy_elements_run (buffer : list byte) (n first : nat) :
  first + n <= length buffer ->
  exists t,
    copy_elements buffer first n = Some (firstn n (skipn first buffer), t)
    /\ Forall (in_bounds (length buffer)) t
    /\ forall i, In (Deref i) t -> first <= i.
Proof.
  revert first; induction n as [|n IH]; intros first Hle; simpl.
  - exists []; split; [reflexivity|]. split; [constructor|].
    intros i [].
  - assert (Hlt : first < length buffer) by lia.
    destruct (IH (S first)) as (t & Ht & Hb & Hfrom); [lia|].
    rewrite Ht; simpl.
    rewrite (skipn_nth_cons x00 buffer Hlt); simpl.
    eexists; split; [reflexivity|].
    rewrite app_nil_r. split.
    + constructor; [simpl; lia | assumption].
    + intros i [Hi | Hi].
      * injection Hi as <-. lia.
      * apply Hfrom in Hi. lia.
Qed.

Lemma vector_of_range_run (buffer : list byte) (first : nat) :
  first <= length buffer ->
  exists t,
    vector_of_range buffer first (length buffer)
      = Some (skipn first buffer, t)
    /\ Forall (in_bounds (length buffer)) t
    /\ forall i, In (Deref i) t -> first <= i.
Proof.
  intros Hle. unfold vector_of_range.
  destruct (@copy_elements_run buffer (length buffer - first) first)
    as (t & Ht & Hb & Hfrom); [lia|].
  exists t; split; [|split; assumption].
  rewrite Ht. rewrite firstn_all2; [reflexivity|].
  rewrite length_skipn; lia.
Qed.

Lemma first_occurrence_unique (s buffer : list byte) (m m' : nat) :
  first_occurrence s buffer m -> first_occurrence s buffer m' -> m = m'.
Proof.
  intros [Ho Hmin] [Ho' Hmin'].
  destruct (Nat.lt_trichotomy m m') as [Hlt | [Heq | Hgt]]; auto.
  - exfalso; exact (Hmin' m Hlt Ho).
  - exfalso; exact (Hmin m' Hgt Ho').
Qed.

Lemma endTag_length : length endTag = 9.
Proof. reflexivity. Qed.

Lemma endTag_not_nil : endTag <> [].
Proof. discriminate. Qed.

(** One run of [locate], in full. Either the tag is absent, the run ends
    at line 105 and every event is within the buffer. Or the tag is first
    found at [m]: the search touches nothing beyond the tag, the iterator
    is advanced to [m + 10], and the copy reads from there on. *)
Lemma locate_run (buffer : list byte) :
  (~ contains endTag buffer /\
   exists t, locate buffer = Some (inl TagNotFound, t)
             /\ Forall (in_bounds (length buffer)) t)
  \/ (exists m,
        first_occurrence endTag buffer m /\ m + 9 <= length buffer /\
        exists t t',
          locate buffer
            = Some (located buffer m, t ++ Seek (m + 10) :: t')
          /\ Forall (in_bounds (m + 9)) t
          /\ Forall (in_bounds (length buffer)) t'
          /\ forall i, In (Deref i) t' -> m + 10 <= i).
Proof.
  unfold locate.
  destruct (std_search_run buffer endTag_not_nil)
    as (m & t & Hrun & Hb & [[Hfirst Hlen] | [-> Hnone]]).
  - right. exists m. rewrite endTag_length in Hlen, Hb.
    replace (Nat.min (length buffer) (m + 9)) with (m + 9) in Hb by lia.
    split; [assumption|]. split; [assumption|].
    rewrite Hrun; simpl.
    assert (E : (m =? length buffer) = false) by (apply Nat.eqb_neq; lia).
    rewrite E. unfold located. cbn [std_advance seek bind].
    replace (length endTag + 1) with 10 by reflexivity.
    destruct (length buffer <=? m + 10) eqn:E2.
    + exists t, []; split; [reflexivity|]. split; [assumption|].
      split; [constructor|]. intros i [].
    + apply Nat.leb_gt in E2.
      destruct (@vector_of_range_run buffer (m + 10))
        as (t' & Ht' & Hb' & Hfrom); [lia|].
      rewrite Ht'. cbn [bind ret].
      exists t, (t' ++ []). rewrite app_nil_r.
      split; [reflexivity|]. split; [assumption|]. split; assumption.
  - left. split; [assumption|].
    rewrite Hrun; simpl. rewrite Nat.eqb_refl.
    exists t. split.
    + unfold ret. rewrite app_nil_r. reflexivity.
    + revert Hb. apply Forall_in_bounds_le. lia.
Qed.

(** The locator always returns. *)
Lemma locate_total (buffer : list byte) :
  exists r t, locate buffer = Some (r, t).
Proof.
  destruct (locate_run buffer) as [(_ & t & H & _) | (m & _ & _ & t & t' & H & _)];
    eauto.
Qed.

Lemma locate_absent (buffer : list byte) :
  ~ contains endTag buffer ->
  value (locate buffer) = Some (inl TagNotFound).
Proof.
  intros Hno.
  destruct (locate_run buffer) as [(_ & t & H & _) | (m & [Ho _] & _)].
  - rewrite H; reflexivity.
  - exfalso; apply Hno; exists m; assumption.
Qed.

Lemma locate_present (buffer : list byte) (m : nat) :
  first_occurrence endTag buffer m ->
  value (locate buffer) = Some (located buffer m).
Proof.
  intros Hm.
  destruct (locate_run buffer)
    as [(Hno & _) | (m' & Hm' & _ & t & t' & H & _)].
  - exfalso; apply Hno; exists m; apply Hm.
  - rewrite (first_occurrence_unique Hm Hm'), H; reflexivity.
Qed.

(** ** What the locator touches *)

(** Every element the locator reads is an element of the document. *)
Lemma locate_reads_in_bounds (buffer : list byte) (i : nat) :
  In (Deref i) (events (locate buffer)) -> i < length buffer.
Proof.
  destruct (locate_run buffer)
    as [(_ & t & H & Hb) | (m & _ & Hlen & t & t' & H & Hb & Hb' & _)];
    rewrite H; simpl; intros Hin.
  - rewrite Forall_forall in Hb. exact (Hb _ Hin).
  - apply in_app_or in Hin as [Hin | [Hin | Hin]].
    + rewrite Forall_forall in Hb. specialize (Hb _ Hin). simpl in Hb. lia.
    + discriminate.
    + rewrite Forall_forall in Hb'. exact (Hb' _ Hin).
Qed.

(** The byte after the tag is never read: the search stops at the end of
    the tag, and the copy starts one byte further. *)
Lemma locate_skips_separator (buffer : list byte) (m : nat) :
  first_occurrence endTag buffer m ->
  ~ In (Deref (m + length endTag)) (events (locate buffer)).
Proof.
  intros Hm. rewrite endTag_length.
  destruct (locate_run buffer)
    as [(Hno & _) | (m' & Hm' & _ & t & t' & H & Hb & _ & Hfrom)].
  - exfalso; apply Hno; exists m; apply Hm.
  - rewrite (first_occurrence_unique Hm Hm'), H; simpl. intros Hin.
    apply in_app_or in Hin as [Hin | [Hin | Hin]].
    + rewrite Forall_forall in Hb. specialize (Hb _ Hin). simpl in Hb. lia.
    + discriminate.
    + apply Hfrom in Hin. lia.
Qed.

(** The locator ends in one of its three ways, whatever the bytes. *)
Lemma locate_outcome (buffer : list byte) :
  value (locate buffer) = Some (inl TagNotFound)
  \/ value (locate buffer) = Some (inl NoData)
  \/ exists m, m + 10 < length buffer /\
               value (locate buffer) = Some (inr (skipn (m + 10) buffer)).
Proof.
  destruct (locate_run buffer)
    as [(_ & t & H & _) | (m & _ & _ & t & t' & H & _)]; rewrite H; simpl.
  - left; reflexivity.
  - right. unfold located.
    destruct (length buffer <=? m + 10) eqn:E.
    + left; reflexivity.
    + right; exists m. apply Nat.leb_gt in E. split; [lia | reflexivity].
Qed.

(** The iterators the locator forms lie within [[begin(), end()]], with one
    exception: when the document ends with its first closing tag, the
    iterator advanced at line 109 lies one past [end()]. *)
Lemma locate_iterators (buffer : list byte) :
  Forall (in_bounds (length buffer)) (events (locate buffer))
  \/ exists m, first_occurrence endTag buffer m
               /\ length buffer = m + length endTag
               /\ In (Seek (length buffer + 1)) (events (locate buffer)).
Proof.
  destruct (locate_run buffer)
    as [(_ & t & H & Hb) | (m & Hm & Hlen & t & t' & H & Hb & Hb' & _)];
    rewrite H; simpl.
  - left; assumption.
  - destruct (Nat.eq_dec (length buffer) (m + 9)) as [E | E].
    + right; exists m.
      split; [assumption|]. split; [assumption|].
      apply in_or_app; right; left. f_equal; lia.
    + left. apply Forall_app; split.
      * revert Hb. apply Forall_in_bounds_le. lia.
      * constructor; [simpl; lia | assumption].
Qed.

Lemma occurs_atb_spec (s buffer : list byte) (k : nat) :
  occurs_atb s buffer k = true <-> occurs_at s buffer k.
Proof.
  unfold occurs_atb, occurs_at. rewrite <- compare_prefix_found.
  destruct (compare_prefix (skipn k buffer) s); split; congruence.
Qed.

Lemma first_occurrenceb_true (s buffer : list byte) (m : nat) :
  first_occurrenceb s buffer m = true -> first_occurrence s buffer m.
Proof.
  unfold first_occurrenceb; intros H.
  apply andb_true_iff in H as [Ho Hall].
  split; [apply occurs_atb_spec; assumption|].
  intros k Hk Hocc.
  rewrite forallb_forall in Hall.
  assert (Hin : In k (seq 0 m)) by (apply in_seq; lia).
  apply Hall in Hin. apply occurs_atb_spec in Hocc.
  rewrite Hocc in Hin; discriminate.
Qed.

Lemma containsb_false (s buffer : list byte) :
  containsb s buffer = false -> ~ contains s buffer.
Proof.
  unfold containsb; intros H (k & Hk).
  assert (Hex : existsb (occurs_atb s buffer) (seq 0 (S (length buffer))) = true).
  { apply existsb_exists.
    destruct (Nat.le_gt_cases k (length buffer)) as [Hle | Hgt].
    - exists k; split; [apply in_seq; lia | apply occurs_atb_spec; assumption].
    - exists (length buffer); split; [apply in_seq; lia|].
      apply occurs_atb_spec. unfold occurs_at in *.
      rewrite skipn_all. rewrite skipn_all2 in Hk by lia. assumption. }
  congruence.
Qed.

Lemma contains_first (buffer : list byte) :
  contains endTag buffer -> exists m, first_occurrence endTag buffer m.
Proof.
  intros Hc.
  destruct (locate_run buffer) as [(Hno & _) | (m & Hm & _)];
    [contradiction | eauto].
Qed.

(** An occurrence that lies within the first part of a buffer does not
    depend on what follows that part. *)
Lemma occurs_at_app (s front back : list byte) (k : nat) :
  k + length s <= length front ->
  occurs_at s (front ++ back) k <-> occurs_at s front k.
Proof.
  intros Hle. unfold occurs_at.
  rewrite skipn_app, firstn_app, length_skipn.
  replace (length s - (length front - k)) with 0 by lia.
  rewrite firstn_O, app_nil_r. reflexivity.
Qed.

Lemma occurs_at_here (s front back : list byte) :
  occurs_at s (front ++ s ++ back) (length front).
Proof.
  unfold occurs_at. rewrite skipn_app_exact. apply firstn_app_exact.
Qed.

(** ** The tag cannot overlap itself *)

(** [<] is the first byte of the tag and occurs nowhere else in it. *)
Lemma endTag_head (j : nat) :
  j < 9 -> nth j endTag x00 = nth 0 endTag x00 -> j = 0.
Proof.
  intros Hj.
  do 9 (destruct j as [|j]; [try reflexivity; discriminate|]).
  lia.
Qed.

(** After a text that does not contain the tag, the tag is first found
    where it was put. *)
Lemma tag_after_text (front back : list byte) :
  ~ contains endTag front ->
  first_occurrence endTag (front ++ endTag ++ back) (length front).
Proof.
  intros Hno. split; [apply occurs_at_here|].
  intros k Hk Hocc.
  destruct (Nat.le_gt_cases (k + 9) (length front)) as [Hin | Hover].
  - apply Hno. exists k.
    apply (occurs_at_app endTag front (endTag ++ back)); [|assumption].
    rewrite endTag_length; assumption.
  - unfold occurs_at in Hocc. rewrite endTag_length in Hocc.
    assert (Hnth : nth (length front - k) endTag x00 = nth 0 endTag x00).
    { rewrite <- Hocc at 1.
      rewrite nth_firstn.
      replace (length front - k <? 9) with true
        by (symmetry; apply Nat.ltb_lt; lia).
      rewrite nth_skipn.
      replace (k + (length front - k)) with (length front) by lia.
      rewrite app_nth2 by lia. rewrite Nat.sub_diag.
      rewrite app_nth1 by (rewrite endTag_length; lia).
      reflexivity. }
    apply endTag_head in Hnth; lia.
Qed.

(** After the tag and one more byte comes the payload. *)
Lemma located_after_tag (front rest : list byte) (b : byte) :
  rest <> [] ->
  located (front ++ endTag ++ b :: rest) (length front) = inr rest.
Proof.
  intros Hrest. unfold located.
  rewrite !length_app, endTag_length. cbn [length].
  destruct rest as [|r rest]; [congruence|]. cbn [length].
  replace (length front + (9 + S (S (length rest))) <=? length front + 10)%nat
    with false by (symmetry; apply Nat.leb_gt; lia).
  f_equal.
  replace (length front + 10)%nat with (10 + length front)%nat by lia.
  rewrite <- skipn_skipn, skipn_app_exact. reflexivity.
Qed.

(** ** The claims on the locator *)

(** C3. In a document in which the tag occurs the locator uses the first
    occurrence, at offset [m]: it succeeds exactly when bytes remain after
    offset [m + length endTag + 1], and what it returns is the document
    from that offset to its end. *)
Theorem C3_locate_first_occurrence (buffer : list byte) :
  contains endTag buffer ->
  exists m,
    first_occurrence endTag buffer m /\
    forall payload,
      value (locate buffer) = Some (inr payload) <->
      (m + length endTag + 1 < length buffer /\
       payload = skipn (m + length endTag + 1) buffer).
Proof.
  intros Hc. destruct (contains_first Hc) as (m & Hm).
  exists m; split; [assumption|].
  intros payload. rewrite (locate_present Hm). unfold located.
  rewrite endTag_length.
  replace (m + 9 + 1) with (m + 10) by lia.
  destruct (length buffer <=? m + 10) eqn:E.
  - apply Nat.leb_le in E. split; [discriminate | lia].
  - apply Nat.leb_gt in E. split.
    + intros H; injection H as <-. split; [lia | reflexivity].
    + intros [_ ->]; reflexivity.
Qed.

Lemma C3_witness :
  exists m,
    first_occurrence endTag sample_document m /\
    forall payload,
      value (locate sample_document) = Some (inr payload) <->
      (m + length endTag + 1 < length sample_document /\
       payload = skipn (m + length endTag + 1) sample_document).
Proof.
  apply (@C3_locate_first_occurrence sample_document).
  exists 11. reflexivity.
Defined.

(** The behaviour of the locator on a document in which the tag is
    first found at offset [m]: defined, unless the document ends with
    that tag, in which case the first event out of range is the iterator
    that line 109 forms. *)
Lemma find_out_of_bounds_none (len : nat) (t : list event) :
  Forall (in_bounds len) t ->
  find (fun e => negb (in_boundsb len e)) t = None.
Proof.
  induction 1 as [|e t He _ IH]; [reflexivity|].
  cbn [find]. replace (in_boundsb len e) with true; [exact IH|].
  symmetry. destruct e; cbn in *;
    [apply Nat.ltb_lt | apply Nat.leb_le]; assumption.
Qed.

Lemma find_after_none {A : Type} (f : A -> bool) (t t' : list A) :
  find f t = None -> find f (t ++ t') = find f t'.
Proof.
  induction t as [|e t IH]; [reflexivity|].
  cbn [find app]. destruct (f e); [discriminate | exact IH].
Qed.

Lemma locate_behaviour (buffer : list byte) (m : nat) :
  first_occurrence endTag buffer m ->
  behaviour_of (length buffer) (locate buffer)
  = Some (if length buffer =? m + 9 then UndefinedBehaviour (Seek (m + 10))
          else Yields (located buffer m)).
Proof.
  intros Hm.
  destruct (locate_run buffer)
    as [(Hno & _) | (m' & Hm' & Hlen & t & t' & H & Hb & Hb' & _)].
  - exfalso. apply Hno. exists m. exact (proj1 Hm).
  - rewrite (first_occurrence_unique Hm' Hm) in *. clear Hm'.
    rewrite H. cbn [behaviour_of].
    assert (Ht : find (fun e => negb (in_boundsb (length buffer) e)) t = None).
    { apply find_out_of_bounds_none. revert Hb.
      apply Forall_in_bounds_le. lia. }
    rewrite (find_after_none _ _ _ Ht). cbn [find in_boundsb].
    destruct (length buffer =? m + 9) eqn:E.
    + apply Nat.eqb_eq in E.
      replace (m + 10 <=? length buffer) with false
        by (symmetry; apply Nat.leb_gt; lia).
      reflexivity.
    + apply Nat.eqb_neq in E.
      replace (m + 10 <=? length buffer) with true
        by (symmetry; apply Nat.leb_le; lia).
      cbn [negb].
      rewrite (find_out_of_bounds_none Hb'). reflexivity.
Qed.

(** C4. When the tag is first found at offset [m] and the offset
    [m + length endTag + 1] is the length of the document, the locator
    returns at line 112: no data after the closing tag. When that offset
    lies beyond the length, the document ends with the tag, and line 109
    moves the iterator one element past [end()] before line 111 tests it:
    the behaviour is undefined, and no result is returned by the
    language's rules. *)
Theorem C4_no_payload (buffer : list byte) (m : nat) :
  first_occurrence endTag buffer m ->
  length buffer <= m + length endTag + 1 ->
  (length buffer = m + length endTag + 1 ->
   behaviour_of (length buffer) (locate buffer)
   = Some (Yields (inl NoData)))
  /\ (length buffer < m + length endTag + 1 ->
      length buffer = m + length endTag
      /\ behaviour_of (length buffer) (locate buffer)
         = Some (UndefinedBehaviour (Seek (length buffer + 1)))).
Proof.
  intros Hm Hlen. rewrite endTag_length in *.
  assert (Hfits : m + 9 <= length buffer).
  { apply (occurs_at_bound (proj1 Hm)). apply endTag_not_nil. }
  rewrite (locate_behaviour Hm). split; intros H.
  - replace (length buffer =? m + 9) with false
      by (symmetry; apply Nat.eqb_neq; lia).
    unfold located.
    replace (length buffer <=? m + 10) with true
      by (symmetry; apply Nat.leb_le; lia).
    reflexivity.
  - assert (E : length buffer = m + 9) by lia.
    split; [exact E|].
    replace (length buffer =? m + 9) with true
      by (symmetry; apply Nat.eqb_eq; exact E).
    do 3 f_equal. lia.
Qed.

(** A document that ends with the tag and one null byte: the locator
    returns at line 112. The same document without the null byte: the
    iterator is moved to offset 21 of a vector of 20 elements. *)
Lemma C4_witness :
  behaviour_of 21
    (locate (list_byte_of_string "<roblox>...</roblox>"%string ++ [x00]))
  = Some (Yields (inl NoData))
  /\ behaviour_of 20
       (locate (list_byte_of_string "<roblox>...</roblox>"%string))
     = Some (UndefinedBehaviour (Seek 21)).
Proof.
  split.
  - refine (proj1 (@C4_no_payload
                     (list_byte_of_string "<roblox>...</roblox>"%string
                      ++ [x00]) 11 _ _) _);
      [apply first_occurrenceb_true; vm_compute; reflexivity
      | vm_compute; lia | reflexivity].
  - refine (proj2 (proj2 (@C4_no_payload
                            (list_byte_of_string
                               "<roblox>...</roblox>"%string) 11 _ _) _));
      [apply first_occurrenceb_true; vm_compute; reflexivity
      | vm_compute; lia | vm_compute; lia].
Defined.

(** C5. A document that does not contain the tag, whatever its length,
    makes the locator return at line 105: closing tag not found. *)
Theorem C5_marker_absent (buffer : list byte) :
  ~ contains endTag buffer ->
  value (locate buffer) = Some (inl TagNotFound).
Proof. apply locate_absent. Qed.

Lemma C5_witness :
  value (locate []) = Some (inl TagNotFound)
  /\ value (locate (list_byte_of_string "<roblox></roblo"%string))
     = Some (inl TagNotFound).
Proof.
  split; apply C5_marker_absent; apply containsb_false; vm_compute;
    reflexivity.
Defined.

(** C10. The byte after the tag is stepped over without being looked at:
    when the tag is first found at the end of [front] and at least one
    byte follows the byte after the tag, the locator returns the bytes
    after that byte, whatever value [b'] the byte has, and it never reads
    the element at the offset of that byte. *)
Theorem C10_separator_not_validated
  (front rest : list byte) (b b' : byte) :
  first_occurrence endTag (front ++ endTag ++ b :: rest) (length front) ->
  rest <> [] ->
  value (locate (front ++ endTag ++ b' :: rest)) = Some (inr rest)
  /\ ~ In (Deref (length front + length endTag))
         (events (locate (front ++ endTag ++ b' :: rest))).
Proof.
  intros [_ Hmin] Hrest.
  assert (Hm : first_occurrence endTag (front ++ endTag ++ b' :: rest)
                 (length front)).
  { split; [apply occurs_at_here|].
    intros k Hk Hocc. apply (Hmin k Hk).
    rewrite app_assoc in Hocc |- *.
    rewrite occurs_at_app in Hocc |- *;
      try (rewrite length_app, endTag_length; lia).
    assumption. }
  split; [|apply locate_skips_separator; assumption].
  rewrite (locate_present Hm), (located_after_tag front b' Hrest).
  reflexivity.
Qed.

Lemma C10_witness :
  value (locate (list_byte_of_string "<roblox>..."%string
                   ++ endTag ++ xff :: [xff; xd8]))
    = Some (inr [xff; xd8])
  /\ ~ In (Deref (length (list_byte_of_string "<roblox>..."%string)
                  + length endTag))
         (events (locate (list_byte_of_string "<roblox>..."%string
                            ++ endTag ++ xff :: [xff; xd8]))).
Proof.
  apply (@C10_separator_not_validated _ _ x00 xff).
  - apply first_occurrenceb_true. vm_compute. reflexivity.
  - discriminate.
Defined.

(** C7. On the nine-byte document that consists of the closing tag alone,
    the locator reads only elements of the document and returns at line
    112, but the iterator that line 109 advances by
    [endTag.length() + 1] is at offset 10, beyond [end()], which is at
    offset 9: this offset computation leaves the bounds of the document
    before the test of line 111 is made. *)
Theorem C7_advance_past_end :
  length endTag = 9
  /\ value (locate endTag) = Some (inl NoData)
  /\ (forall i, In (Deref i) (events (locate endTag)) -> i < 9)
  /\ In (Seek 10) (events (locate endTag))
  /\ ~ in_bounds (length endTag) (Seek 10).
Proof.
  split; [reflexivity|]. split; [reflexivity|].
  split; [intros i; apply locate_reads_in_bounds|].
  split; [vm_compute; tauto|].
  simpl. lia.
Qed.

(** * Properties of the decoder *)

Local Open Scope Z_scope.

(** ** Arithmetic of the stride *)

Lemma uint_range (z : Z) : 0 <= uint z < 2 ^ 32.
Proof. unfold uint. apply Z.mod_pos_bound. lia. Qed.

Lemma uint_small (z : Z) : 0 <= z < 2 ^ 32 -> uint z = z.
Proof. intros H. unfold uint. apply Z.mod_small; assumption. Qed.

Lemma uint_wrapped (z : Z) : 2 ^ 32 <= z -> uint z <= z - 2 ^ 32.
Proof.
  intros H. unfold uint. rewrite Z.mod_eq by lia.
  pose proof (Z.div_str_pos z (2 ^ 32) ltac:(lia)). nia.
Qed.

Lemma to_int_small (z : Z) : 0 <= z < 2 ^ 31 -> to_int z = z.
Proof.
  intros H. unfold to_int.
  destruct (z <? 2 ^ 31) eqn:E; [reflexivity|].
  apply Z.ltb_ge in E. lia.
Qed.

(** Clearing the two low bits rounds down to a multiple of four. *)
Lemma land_lnot_3 (x : Z) : Z.land x (Z.lnot 3) = 4 * (x / 4).
Proof.
  rewrite <- Z.ldiff_land.
  change 3 with (Z.ones 2).
  rewrite Z.ldiff_ones_r by lia.
  rewrite Z.shiftl_mul_pow2, Z.shiftr_div_pow2 by lia.
  change (2 ^ 2) with 4. lia.
Qed.

(** The mask [~3] as a [UINT] acts on a [UINT] as [~3] does. *)
Lemma land_uint_mask (x : Z) :
  0 <= x < 2 ^ 32 -> Z.land x (uint (Z.lnot 3)) = Z.land x (Z.lnot 3).
Proof.
  intros Hx. unfold uint.
  rewrite <- (Z.land_ones (Z.lnot 3) 32) by lia.
  rewrite (Z.land_comm (Z.lnot 3)), Z.land_assoc.
  rewrite (Z.land_ones x 32) by lia.
  rewrite Z.mod_small by assumption. reflexivity.
Qed.

Lemma row_stride_uint (w : Z) :
  row_stride w = Z.land (uint (w * 3 + 3)) (Z.lnot 3).
Proof.
  unfold row_stride.
  rewrite land_uint_mask by apply uint_range.
  unfold uint. rewrite Zplus_mod_idemp_l. reflexivity.
Qed.

(** Without wrap-around the stride is [(w * 3 + 3) & ~3]. *)
Lemma row_stride_exact (w : Z) :
  0 <= w -> w * 3 + 3 < 2 ^ 32 ->
  row_stride w = Z.land (w * 3 + 3) (Z.lnot 3).
Proof.
  intros H0 H1. rewrite row_stride_uint, uint_small by lia. reflexivity.
Qed.

(** The stride is a multiple of four, and without wrap-around it holds
    a row of [w] pixels of three bytes with fewer than four bytes of
    padding. *)
Lemma row_stride_aligned (w : Z) : row_stride w mod 4 = 0.
Proof.
  rewrite row_stride_uint, land_lnot_3.
  rewrite Z.mul_comm. apply Z_mod_mult.
Qed.

Lemma row_stride_le (w : Z) : 0 <= row_stride w <= uint (w * 3 + 3).
Proof.
  rewrite row_stride_uint, land_lnot_3.
  pose proof (uint_range (w * 3 + 3)).
  pose proof (Z.div_mod (uint (w * 3 + 3)) 4 ltac:(lia)).
  pose proof (Z.mod_pos_bound (uint (w * 3 + 3)) 4 ltac:(lia)).
  lia.
Qed.

(** A destination that the imaging component accepts was sized without
    wrap-around. *)
Lemma accepted_destination_exact (w h : Z) :
  0 <= w -> 0 <= h ->
  3 * w <= row_stride w ->
  row_stride w * (h - 1) + 3 * w <= buffer_size h (row_stride w) ->
  w * 3 + 3 < 2 ^ 32 /\ h * row_stride w < 2 ^ 32.
Proof.
  intros Hw Hh Hrow Hbuf.
  pose proof (row_stride_le w) as Hle.
  assert (Hfit : w * 3 + 3 < 2 ^ 32).
  { destruct (Z.lt_ge_cases (w * 3 + 3) (2 ^ 32)) as [|Hge]; [assumption|].
    pose proof (uint_wrapped Hge). lia. }
  split; [assumption|].
  rewrite uint_small in Hle by lia.
  destruct (Z.lt_ge_cases (h * row_stride w) (2 ^ 32)) as [|Hge];
    [assumption|].
  unfold buffer_size in Hbuf. pose proof (uint_wrapped Hge). lia.
Qed.

Lemma row_stride_bounds (w : Z) :
  0 <= w -> w * 3 + 3 < 2 ^ 32 ->
  3 * w <= row_stride w <= 3 * w + 3.
Proof.
  intros H0 H1. rewrite row_stride_exact, land_lnot_3 by assumption.
  pose proof (Z.div_mod (w * 3 + 3) 4 ltac:(lia)).
  pose proof (Z.mod_pos_bound (w * 3 + 3) 4 ltac:(lia)).
  lia.
Qed.

(** The widths of all four remainders modulo four. *)
Lemma row_stride_samples :
  map row_stride [1; 2; 3; 4; 5; 100; 101] = [4; 8; 12; 12; 16; 300; 304].
Proof. reflexivity. Qed.

Lemma filled_length (n : nat) (pixels : list byte) :
  length (filled n pixels) = n.
Proof.
  unfold filled. rewrite length_app, length_firstn, repeat_length. lia.
Qed.

Lemma stream_view_small (jpegData : list byte) :
  Z.of_nat (length jpegData) < 2 ^ 32 -> stream_view jpegData = jpegData.
Proof.
  intros H. unfold stream_view.
  rewrite uint_small by lia. rewrite Nat2Z.id. apply firstn_all.
Qed.

(** ** References are released on every path *)

Lemma release_all_held (com : COM) : release_all (held com) = com.
Proof. destruct com; reflexivity. Qed.

Section DecoderFacts.

Variable wic : WIC.

Lemma open_frame_references (jpegData : list byte) (com : COM) :
  match open_frame wic jpegData com with
  | inl (r, com') => com' = com /\ exists e hr, r = Failure e hr
  | inr (w, h, com') =>
      com' = held com /\ 0 <= w < 2 ^ 32 /\ 0 <= h < 2 ^ 32
  end.
Proof.
  unfold open_frame.
  destruct (FAILED (CoCreateInstance wic com)); [split; eauto|].
  destruct (FAILED (CreateStream wic _));
    [split; [destruct com; reflexivity | eauto]|].
  destruct (FAILED (InitializeFromMemory wic _ _));
    [split; [destruct com; reflexivity | eauto]|].
  destruct (FAILED (CreateDecoderFromStream wic _ _));
    [split; [destruct com; reflexivity | eauto]|].
  destruct (FAILED (GetFrame wic _ _ _));
    [split; [destruct com; reflexivity | eauto]|].
  destruct (GetSize wic _ _) as [[hr w] h].
  destruct (FAILED hr); [split; [apply release_all_held | eauto]|].
  split; [reflexivity|]. split; apply uint_range.
Qed.

Lemma copy_frame_references (jpegData : list byte) (w h : Z) (com : COM) :
  snd (copy_frame wic jpegData w h (held com)) = com.
Proof.
  unfold copy_frame.
  destruct (CopyPixels wic _ _ _ _) as [hr pixels].
  rewrite release_all_held.
  destruct (FAILED hr); [reflexivity|].
  match goal with |- context [if ?c then _ else _] => destruct c end;
    reflexivity.
Qed.

(** Whatever happens, [decode] leaves as many references outstanding as
    it found. *)
Lemma decode_references (jpegData : list byte) (com : COM) :
  snd (decode wic jpegData com) = com.
Proof.
  unfold decode.
  pose proof (open_frame_references jpegData com) as H.
  destruct (open_frame wic jpegData com) as [[r com'] | [[w h] com']].
  - destruct H as [H _]. exact H.
  - destruct H as (-> & _). apply copy_frame_references.
Qed.

(** The pipeline always returns, and leaves the references as they were. *)
Lemma thumbnail_of_total (buffer : list byte) (com : COM) :
  exists r, thumbnail_of wic buffer com = Some (r, com).
Proof.
  unfold thumbnail_of.
  destruct (locate_total buffer) as (r & t & H). rewrite H; simpl.
  destruct r as [e | jpegData].
  - eexists; reflexivity.
  - exists (fst (decode wic jpegData com)).
    rewrite <- (decode_references jpegData com) at 3.
    destruct (decode wic jpegData com); reflexivity.
Qed.

(** With the allocation of line 178 in the picture the pipeline still
    ends in one of two ways. When it returns, it returns what the pipeline
    returns when [resize] obtains its bytes, and the references are as
    they were; when [resize] throws, the four references of the frame are
    outstanding. *)
Lemma throwing_thumbnail_of_run (heap : Heap) (buffer : list byte)
  (com : COM) :
  exists e c,
    Throwing.thumbnail_of heap wic buffer com = Some (e, c)
    /\ match e with
       | Returns r => c = com /\ thumbnail_of wic buffer com = Some (r, com)
       | Throws _ => c = held com
       end.
Proof.
  unfold Throwing.thumbnail_of, thumbnail_of.
  destruct (locate_total buffer) as (r & t & H). rewrite H; simpl.
  destruct r as [e | jpegData].
  - eexists; eexists. split; [reflexivity|]. split; reflexivity.
  - unfold Throwing.decode, decode.
    pose proof (open_frame_references jpegData com) as Href.
    destruct (open_frame wic jpegData com) as [[r c] | [[w h] c]].
    + destruct Href as [-> _].
      eexists; eexists. split; [reflexivity|]. split; reflexivity.
    + destruct Href as (-> & _). unfold Throwing.copy_frame.
      destruct (heap (buffer_size h (row_stride w))).
      * pose proof (copy_frame_references jpegData w h com) as Hc.
        destruct (copy_frame wic jpegData w h (held com)) as [r c].
        cbn [snd] in Hc. subst c.
        eexists; eexists. split; [reflexivity|]. split; reflexivity.
      * eexists; eexists. split; reflexivity.
Qed.

(** What [open_frame] returns is what [GetSize] stored, as [UINT]s. *)
Lemma open_frame_size (jpegData : list byte) (com c : COM) (w h : Z) :
  open_frame wic jpegData com = inr (w, h, c) ->
  exists hr w0 h0,
    GetSize wic c (stream_view jpegData) = (hr, w0, h0)
    /\ w = uint w0 /\ h = uint h0.
Proof.
  unfold open_frame.
  destruct (FAILED (CoCreateInstance wic com)); [discriminate|].
  destruct (FAILED (CreateStream wic _)); [discriminate|].
  destruct (FAILED (InitializeFromMemory wic _ _)); [discriminate|].
  destruct (FAILED (CreateDecoderFromStream wic _ _)); [discriminate|].
  destruct (FAILED (GetFrame wic _ _ _)); [discriminate|].
  destruct (GetSize wic _ _) as [[hr w0] h0] eqn:Hsize.
  destruct (FAILED hr); [discriminate|].
  intros H; injection H as <- <- <-.
  exists hr, w0, h0. split; [exact Hsize|]. split; reflexivity.
Qed.

(** What a successful [copy_frame] returns. *)
Lemma copy_frame_success (jpegData : list byte) (w h : Z) (com com' : COM)
  (thumb : Thumbnail) (hbmp : HBITMAP) (alpha : WTS_ALPHATYPE) :
  copy_frame wic jpegData w h com = (Success thumb hbmp alpha, com') ->
  width thumb = to_int w /\ height thumb = to_int h
  /\ Z.of_nat (length (data thumb)) = buffer_size h (row_stride w)
  /\ FAILED (fst (CopyPixels wic com (stream_view jpegData) (row_stride w)
                    (buffer_size h (row_stride w)))) = false
  /\ hbmp <> 0 /\ alpha = WTSAT_RGB.
Proof.
  unfold copy_frame.
  destruct (CopyPixels wic _ _ _ _) as [hr pixels].
  destruct (FAILED hr) eqn:Hcopy; [discriminate|].
  match goal with |- context [if ?c then _ else _] => destruct c eqn:E end;
    [discriminate|].
  intros H; injection H as <- <- <- _. cbn [width height data fst].
  split; [reflexivity|]. split; [reflexivity|].
  split.
  - rewrite filled_length, Z2Nat.id; [reflexivity|].
    apply uint_range.
  - split; [exact Hcopy|].
    split; [|reflexivity]. apply Z.eqb_neq in E. exact E.
Qed.

End DecoderFacts.

(** ** The claims on the decoder and on the whole call *)

(** The stand-in codec decodes what carries a frame header. *)
Lemma header_codec_decodable (jpeg : list byte) (w h : Z) :
  starts_with_soi jpeg = true ->
  frame_header jpeg = Some (w, h) ->
  0 <= w -> 0 <= h ->
  decodable header_codec jpeg w h.
Proof.
  intros Hsoi Hfh Hw Hh.
  constructor; intros; cbn [header_codec CoCreateInstance CreateStream
    InitializeFromMemory CreateDecoderFromStream GetFrame GetSize CopyPixels
    CreateBitmap].
  - reflexivity.
  - reflexivity.
  - destruct jpeg; [discriminate | reflexivity].
  - rewrite Hsoi; reflexivity.
  - rewrite Hfh; reflexivity.
  - rewrite Hfh. exists S_OK; split; reflexivity.
  - rewrite Hfh.
    replace (3 * w <=? stride) with true by (symmetry; apply Z.leb_le; lia).
    replace (stride * h <=? size) with true
      by (symmetry; apply Z.leb_le; lia).
    reflexivity.
  - replace (w <? 0) with false by (symmetry; apply Z.ltb_ge; lia).
    replace (h <? 0) with false by (symmetry; apply Z.ltb_ge; lia).
    discriminate.
Qed.

Lemma be16_range (hi lo : byte) : 0 <= be16 hi lo < 65536.
Proof.
  unfold be16.
  pose proof (Byte.to_N_bounded hi). pose proof (Byte.to_N_bounded lo).
  lia.
Qed.

Lemma header_here_range (bytes : list byte) (w h : Z) :
  header_here bytes = Some (w, h) ->
  0 <= w < 65536 /\ 0 <= h < 65536.
Proof.
  unfold header_here.
  do 9 (destruct bytes as [|? bytes]; [discriminate|]).
  destruct (_ && _); [|discriminate].
  intros H; injection H as <- <-. split; apply be16_range.
Qed.

Lemma frame_header_range (bytes : list byte) (w h : Z) :
  frame_header bytes = Some (w, h) ->
  0 <= w < 65536 /\ 0 <= h < 65536.
Proof.
  induction bytes as [|b bytes IH]; cbn [frame_header].
  - destruct (header_here []) eqn:E; [|discriminate].
    intros H; injection H as ->. exact (header_here_range _ E).
  - destruct (header_here (b :: bytes)) eqn:E; [|exact IH].
    intros H; injection H as ->. exact (header_here_range _ E).
Qed.

(** The stand-in codec refuses a destination too small for the rows. *)
Lemma header_codec_checks_destination : checks_destination header_codec.
Proof.
  intros com image stride size hr w h.
  cbn [header_codec GetSize CopyPixels].
  destruct (frame_header image) as [[w' h'] |] eqn:E; [|discriminate].
  apply frame_header_range in E as [Hw Hh].
  intros H; injection H as _ <- <-.
  destruct (3 * w' <=? stride) eqn:E1; [|discriminate].
  destruct (stride * h' <=? size) eqn:E2; [|discriminate].
  intros _. apply Z.leb_le in E1, E2.
  rewrite !uint_small by lia. nia.
Qed.

Section Claims.

Variable wic : WIC.

(** What [decode] does once the frame has reported its size: nothing
    stands between [GetSize] and [CopyPixels]. *)
Lemma decode_after_size (jpegData : list byte) (com c : COM) (w h : Z) :
  open_frame wic jpegData com = inr (w, h, c) ->
  decode wic jpegData com = copy_frame wic jpegData w h c.
Proof. intros H. unfold decode. rewrite H. reflexivity. Qed.


End Claims.



(** Four references are outstanding while the frame is held. *)
Lemma held_outstanding (com : COM) : held com <> com.
Proof.
  destruct com as [f s d r]. unfold held, acquire; cbn.
  intros H. injection H as H _ _ _. lia.
Qed.

(** C2. Once the frame has reported its size the decoder looks at
    neither the width nor the height. Whatever they are, zero or beyond
    what [UINT] arithmetic holds, it asks [resize] for the [UINT] product
    of the height and the stride. When [resize] throws, the call ends
    there, with the four references outstanding and no result code; when
    it obtains the bytes, [CopyPixels] is called with that size, and the
    call fails with the code of [CopyPixels], fails because
    [CreateBitmap] returns the null handle, or succeeds. No exit reports
    the dimensions. *)
Theorem C2_no_dimension_check
  (heap : Heap) (wic : WIC) (jpegData : list byte) (com c : COM) (w h : Z) :
  open_frame wic jpegData com = inr (w, h, c) ->
  let stride := row_stride w in
  let size := buffer_size h stride in
  let copied :=
    CopyPixels wic (held com) (stream_view jpegData) stride size in
  let thumb := {| data := filled (Z.to_nat size) (snd copied);
                  width := to_int w;
                  height := to_int h |} in
  let hbmp := CreateBitmap wic (width thumb) (height thumb) 1 24
                (data thumb) in
  Throwing.decode heap wic jpegData com
  = (if heap size then
       (Returns (if FAILED (fst copied)
                 then Failure AtCopyPixels (fst copied)
                 else if hbmp =? 0 then Failure AtCreateBitmap E_FAIL
                      else Success thumb hbmp WTSAT_RGB),
        com)
     else (Throws size, held com))
  /\ held com <> com.
Proof.
  intros Hopen stride size copied thumb hbmp.
  split; [|apply held_outstanding].
  pose proof (open_frame_references wic jpegData com) as Href.
  rewrite Hopen in Href. destruct Href as (-> & _).
  unfold Throwing.decode. rewrite Hopen.
  unfold Throwing.copy_frame. fold stride. fold size.
  destruct (heap size); [|reflexivity].
  unfold copy_frame. fold stride. fold size. fold copied.
  rewrite release_all_held.
  rewrite (surjective_pairing copied).
  fold thumb. fold hbmp. cbn [fst].
  destruct (FAILED (fst copied)); [reflexivity|].
  destruct (hbmp =? 0); reflexivity.
Qed.

(** A frame header of 65535 x 65535 pixels in a process of 32 bits:
    [resize] is asked for 4294770688 bytes, and the call ends with its
    exception while the factory, the stream, the decoder and the frame
    are held. *)
Lemma C2_witness :
  open_frame header_codec (jpeg_header xff xff xff xff) idle
    = inr (65535, 65535, held idle)
  /\ buffer_size 65535 (row_stride 65535) = 4294770688
  /\ Throwing.decode heap32 header_codec (jpeg_header xff xff xff xff) idle
     = (Throws 4294770688, held idle)
  /\ held idle
     = {| factories := 1; streams := 1; decoders := 1; frames := 1 |}.
Proof.
  split; [reflexivity|]. split; [reflexivity|]. split; [|reflexivity].
  exact (proj1 (@C2_no_dimension_check heap32 header_codec
                  (jpeg_header xff xff xff xff) idle (held idle)
                  65535 65535 eq_refl)).
Defined.

(** The same on whole documents. A frame header that declares a width
    and a height of zero is not refused: the call succeeds with an empty
    thumbnail. A frame header of 65535 x 65535 pixels, whose pixels take
    more than [2^32] bytes, is not refused either: with the bytes of the
    wrapped product obtained, the call fails only inside [CopyPixels],
    with the code of the imaging component; without them, it ends with the
    exception. *)
Remark dimensions_not_validated :
  thumbnail_of header_codec empty_image_document idle
  = Some (Success {| data := []; width := 0; height := 0 |} 1 WTSAT_RGB,
          idle)
  /\ 2 ^ 32 <= 65535 * 65535 * 3
  /\ thumbnail_of header_codec huge_image_document idle
     = Some (Failure AtCopyPixels WINCODEC_ERR_INSUFFICIENTBUFFER, idle)
  /\ Throwing.thumbnail_of heap32 header_codec huge_image_document idle
     = Some (Throws 4294770688, held idle).
Proof.
  split; [reflexivity|]. split; [lia|].
  split; lazy; reflexivity.
Qed.

(** C6. When the call succeeds on an image whose frame reports the width
    [w] and the height [h], the stride is [(w * 3 + 3) & ~3], a multiple
    of four, and the thumbnail holds exactly [h * stride] bytes. The code
    computes both as [UINT]s; they are the unbounded values whenever these
    are below [2^32], and in every successful call when the imaging
    component refuses a destination too small for the rows. *)
Theorem C6_stride_and_buffer_size
  (wic : WIC) (buffer : list byte) (com com' : COM)
  (thumb : Thumbnail) (hbmp : HBITMAP) (alpha : WTS_ALPHATYPE) :
  thumbnail_of wic buffer com = Some (Success thumb hbmp alpha, com') ->
  exists jpegData w h,
    value (locate buffer) = Some (inr jpegData)
    /\ open_frame wic jpegData com = inr (w, h, held com)
    /\ width thumb = to_int w
    /\ height thumb = to_int h
    /\ row_stride w = Z.land (uint (w * 3 + 3)) (Z.lnot 3)
    /\ row_stride w mod 4 = 0
    /\ Z.of_nat (length (data thumb)) = buffer_size h (row_stride w)
    /\ (w * 3 + 3 < 2 ^ 32 ->
        h * Z.land (w * 3 + 3) (Z.lnot 3) < 2 ^ 32 ->
        exact_layout w h thumb)
    /\ (checks_destination wic -> exact_layout w h thumb).
Proof.
  unfold thumbnail_of.
  destruct (value (locate buffer)) as [[e | jpegData] |]; try discriminate.
  intros H; injection H as H.
  exists jpegData.
  unfold decode in H.
  pose proof (open_frame_references wic jpegData com) as Href.
  destruct (open_frame wic jpegData com) as [[r c] | [[w h] c]] eqn:Hopen.
  - destruct Href as (_ & e' & hr' & ->). discriminate.
  - destruct Href as (-> & Hw & Hh).
    exists w, h.
    apply copy_frame_success in H
      as (Hwidth & Hheight & Hlen & Hcopy & _ & _).
    assert (Hexact : w * 3 + 3 < 2 ^ 32 ->
                     h * Z.land (w * 3 + 3) (Z.lnot 3) < 2 ^ 32 ->
                     exact_layout w h thumb).
    { intros Hfit Hprod.
      pose proof (row_stride_exact (w := w) ltac:(lia) Hfit) as Hrow.
      pose proof (row_stride_le w) as Hpos.
      split; [exact Hrow|].
      rewrite Hlen, Hrow. apply uint_small.
      rewrite Hrow in Hpos. split; [nia | assumption]. }
    split; [reflexivity|]. split; [reflexivity|].
    split; [assumption|]. split; [assumption|].
    split; [apply row_stride_uint|].
    split; [apply row_stride_aligned|].
    split; [assumption|].
    split; [exact Hexact|].
    intros Hchecks.
    destruct (open_frame_size _ _ _ Hopen) as (hr & w0 & h0 & Hsize & -> & ->).
    destruct (Hchecks _ _ _ _ _ _ _ Hsize Hcopy) as [Hrow Hbuf].
    destruct (@accepted_destination_exact (uint w0) (uint h0))
      as [Hfit Hprod]; try lia.
    apply Hexact; [assumption|].
    rewrite <- (row_stride_exact (w := uint w0)) by lia. assumption.
Qed.

Lemma C6_witness :
  exists jpegData w h,
    value (locate small_document) = Some (inr jpegData)
    /\ open_frame header_codec jpegData idle = inr (w, h, held idle)
    /\ 5 = to_int w
    /\ 2 = to_int h
    /\ row_stride w = Z.land (uint (w * 3 + 3)) (Z.lnot 3)
    /\ row_stride w mod 4 = 0
    /\ 32 = buffer_size h (row_stride w)
    /\ (w * 3 + 3 < 2 ^ 32 ->
        h * Z.land (w * 3 + 3) (Z.lnot 3) < 2 ^ 32 ->
        exact_layout w h
          {| data := repeat x80 32; width := 5; height := 2 |})
    /\ (checks_destination header_codec ->
        exact_layout w h
          {| data := repeat x80 32; width := 5; height := 2 |}).
Proof.
  apply (@C6_stride_and_buffer_size header_codec small_document idle idle
           {| data := repeat x80 32; width := 5; height := 2 |}
           1 WTSAT_RGB).
  reflexivity.
Defined.

(** C8. The requested size [cx] has no part in the call: two calls that
    differ only in [cx] return the same, and a thumbnail that is returned
    has the width and the height that the frame reported. *)
Theorem C8_requested_size_ignored
  (wic : WIC) (cx cx' : Z) (pStream : IStream) (com : COM) :
  GetThumbnail wic cx pStream com = GetThumbnail wic cx' pStream com
  /\ forall thumb hbmp alpha rest com',
       GetThumbnail wic cx pStream com
         = Some (Success thumb hbmp alpha, rest, com') ->
       exists jpegData w h,
         open_frame wic jpegData com = inr (w, h, held com)
         /\ width thumb = to_int w
         /\ height thumb = to_int h.
Proof.
  split; [reflexivity|].
  intros thumb hbmp alpha rest com'. unfold GetThumbnail.
  destruct (read_all pStream []) as [[hr buffer] rest'].
  destruct (FAILED hr); [discriminate|].
  destruct (thumbnail_of wic buffer com) as [[r c] |] eqn:Hrun;
    [|discriminate].
  intros H; injection H as -> _ ->.
  unfold thumbnail_of in Hrun.
  destruct (value (locate buffer)) as [[e | jpegData] |]; try discriminate.
  injection Hrun as Hrun. unfold decode in Hrun.
  pose proof (open_frame_references wic jpegData com) as Href.
  destruct (open_frame wic jpegData com) as [[r c] | [[w h] c]] eqn:Hopen.
  - destruct Href as (_ & e' & hr' & ->). discriminate.
  - destruct Href as (-> & _).
    apply copy_frame_success in Hrun as (Hwidth & Hheight & _).
    exists jpegData, w, h. repeat split; assumption.
Qed.

Lemma C8_witness :
  GetThumbnail header_codec 96
    [{| read_hr := S_OK; read_bytes := small_document |}] idle
  = GetThumbnail header_codec 256
      [{| read_hr := S_OK; read_bytes := small_document |}] idle
  /\ exists jpegData w h,
       open_frame header_codec jpegData idle = inr (w, h, held idle)
       /\ 5 = to_int w
       /\ 2 = to_int h.
Proof.
  destruct (@C8_requested_size_ignored header_codec 96 256
              [{| read_hr := S_OK; read_bytes := small_document |}] idle)
    as [Hsame Hnative].
  split; [exact Hsame|].
  apply (Hnative {| data := repeat x80 32; width := 5; height := 2 |}
           1 WTSAT_RGB [] idle).
  reflexivity.
Defined.

(** [GetThumbnail] reads [_pStream] to its end and does not rewind it, so
    that a second call on the same provider has no byte left to read and
    returns [E_FAIL] for want of the closing tag. *)
Remark GetThumbnail_drains_stream :
  exists thumb hbmp,
    GetThumbnail header_codec 256
      [{| read_hr := S_OK; read_bytes := small_document |}] idle
      = Some (Success thumb hbmp WTSAT_RGB, [], idle)
    /\ GetThumbnail header_codec 256 [] idle
       = Some (Failure (AtLocate TagNotFound) E_FAIL, [], idle)
    /\ hresult (Failure (AtLocate TagNotFound) E_FAIL) = -2147467259.
Proof.
  eexists; eexists. split; [reflexivity|]. split; reflexivity.
Qed.

(** * Further properties *)

(** ** Reading the stream (lines 86-98) *)

Lemma delivers_chunk (a : ReadAnswer) :
  delivers a = true ->
  SUCCEEDED (read_hr a) = true
  /\ firstn 4096 (read_bytes a) = read_bytes a
  /\ (0 < length (read_bytes a))%nat.
Proof.
  unfold delivers. intros H.
  apply andb_true_iff in H as [H Hmax]. apply andb_true_iff in H as [Hok Hpos].
  apply Nat.ltb_lt in Hpos. apply Nat.leb_le in Hmax.
  split; [assumption|]. split; [apply firstn_all2; assumption | assumption].
Qed.

Lemma read_all_delivers (answers rest : list ReadAnswer)
  (buffer : list byte) :
  forallb delivers answers = true ->
  read_all (answers ++ rest) buffer
    = read_all rest (buffer ++ delivered answers).
Proof.
  revert buffer; induction answers as [|a answers IH]; intros buffer Hall.
  - unfold delivered; simpl. rewrite app_nil_r. reflexivity.
  - simpl in Hall. apply andb_true_iff in Hall as [Ha Hall].
    destruct (delivers_chunk a Ha) as (Hok & Hchunk & Hpos).
    cbn [app read_all]. rewrite Hok, Hchunk.
    replace (0 <? length (read_bytes a))%nat with true
      by (symmetry; apply Nat.ltb_lt; assumption).
    cbn [andb]. rewrite (IH _ Hall).
    unfold delivered. cbn [map concat]. rewrite app_assoc. reflexivity.
Qed.

Lemma read_all_ends (answers : list ReadAnswer) (last : ReadAnswer)
  (rest : list ReadAnswer) (buffer : list byte) :
  forallb delivers answers = true ->
  ends_reading last = true ->
  read_all (answers ++ last :: rest) buffer
    = (read_hr last, buffer ++ delivered answers, rest).
Proof.
  intros Hall Hlast.
  rewrite (read_all_delivers _ _ _ Hall). cbn [read_all].
  unfold ends_reading in Hlast.
  destruct (SUCCEEDED (read_hr last)); [|reflexivity].
  cbn [negb orb] in Hlast. apply Nat.eqb_eq in Hlast.
  rewrite length_firstn, Hlast. reflexivity.
Qed.

Lemma read_all_runs_out (answers : list ReadAnswer) (buffer : list byte) :
  forallb delivers answers = true ->
  read_all answers buffer = (S_FALSE, buffer ++ delivered answers, []).
Proof.
  intros Hall. rewrite <- (app_nil_r answers) at 1.
  rewrite (read_all_delivers _ _ _ Hall). reflexivity.
Qed.

(** X1. The loop that drains the stream appends the chunks in order and
    stops at the first read that fails or stores no byte: after reads that
    deliver 1 to 4096 bytes each, the buffer is what it was followed by
    the bytes delivered; the result code is that of the read that ended
    the loop, whose bytes and every later answer of the stream are left
    unread; a stream that runs out ends the loop with [S_FALSE]. *)
Theorem X1_read_all_appends
  (answers : list ReadAnswer) (last : ReadAnswer) (rest : list ReadAnswer)
  (buffer : list byte) :
  forallb delivers answers = true ->
  ends_reading last = true ->
  read_all (answers ++ last :: rest) buffer
    = (read_hr last, buffer ++ delivered answers, rest)
  /\ read_all answers buffer = (S_FALSE, buffer ++ delivered answers, []).
Proof.
  intros Hall Hlast. split.
  - apply read_all_ends; assumption.
  - apply read_all_runs_out; assumption.
Qed.

Lemma X1_witness :
  read_all
    ([{| read_hr := S_OK; read_bytes := [x3c; x2f] |};
      {| read_hr := S_FALSE; read_bytes := [x72] |}]
     ++ {| read_hr := S_OK; read_bytes := [] |}
     :: [{| read_hr := S_OK; read_bytes := [x6f] |}]) [x00]
    = (S_OK,
       [x00] ++ delivered
                  [{| read_hr := S_OK; read_bytes := [x3c; x2f] |};
                   {| read_hr := S_FALSE; read_bytes := [x72] |}],
       [{| read_hr := S_OK; read_bytes := [x6f] |}])
  /\ read_all
       [{| read_hr := S_OK; read_bytes := [x3c; x2f] |};
        {| read_hr := S_FALSE; read_bytes := [x72] |}] [x00]
     = (S_FALSE,
        [x00] ++ delivered
                   [{| read_hr := S_OK; read_bytes := [x3c; x2f] |};
                    {| read_hr := S_FALSE; read_bytes := [x72] |}],
        []).
Proof.
  apply (@X1_read_all_appends
           [{| read_hr := S_OK; read_bytes := [x3c; x2f] |};
            {| read_hr := S_FALSE; read_bytes := [x72] |}]
           {| read_hr := S_OK; read_bytes := [] |}
           [{| read_hr := S_OK; read_bytes := [x6f] |}] [x00]);
    reflexivity.
Defined.



(** X3. A read that fails ends the call at line 97 with the code of that
    read, whatever was read before it, even a whole document: nothing is
    searched or decoded, no reference is taken, and the answers the
    stream had left stay in it. *)
Theorem X3_read_failure
  (wic : WIC) (cx : Z) (answers : list ReadAnswer) (bad : ReadAnswer)
  (rest : list ReadAnswer) (com : COM) :
  forallb delivers answers = true ->
  FAILED (read_hr bad) = true ->
  GetThumbnail wic cx (answers ++ bad :: rest) com
    = Some (Failure AtRead (read_hr bad), rest, com).
Proof.
  intros Hall Hbad.
  assert (Hends : ends_reading bad = true).
  { unfold ends_reading, SUCCEEDED. unfold FAILED in Hbad.
    apply Z.ltb_lt in Hbad.
    replace (0 <=? read_hr bad) with false
      by (symmetry; apply Z.leb_gt; assumption).
    reflexivity. }
  unfold GetThumbnail.
  rewrite (read_all_ends answers bad rest [] Hall Hends), Hbad.
  reflexivity.
Qed.

Lemma X3_witness :
  GetThumbnail header_codec 256
    ([{| read_hr := S_OK; read_bytes := small_document |}]
     ++ {| read_hr := E_FAIL; read_bytes := [] |}
     :: [{| read_hr := S_OK; read_bytes := [x00] |}]) idle
    = Some (Failure AtRead (read_hr {| read_hr := E_FAIL; read_bytes := [] |}),
            [{| read_hr := S_OK; read_bytes := [x00] |}], idle).
Proof.
  apply (@X3_read_failure header_codec 256
           [{| read_hr := S_OK; read_bytes := small_document |}]
           {| read_hr := E_FAIL; read_bytes := [] |}
           [{| read_hr := S_OK; read_bytes := [x00] |}] idle);
    reflexivity.
Defined.

(** ** Two calls in a row *)




(** ** The result of the call *)

Section ResultCodes.

Variable wic : WIC.

Lemma open_frame_failure (jpegData : list byte) (com com' : COM)
  (r : result) :
  open_frame wic jpegData com = inl (r, com') ->
  exists e hr, r = Failure e hr /\ FAILED hr = true.
Proof.
  unfold open_frame.
  destruct (FAILED (CoCreateInstance wic com)) eqn:E1;
    [intros H; injection H as <- _; eauto|].
  destruct (FAILED (CreateStream wic _)) eqn:E2;
    [intros H; injection H as <- _; eauto|].
  destruct (FAILED (InitializeFromMemory wic _ _)) eqn:E3;
    [intros H; injection H as <- _; eauto|].
  destruct (FAILED (CreateDecoderFromStream wic _ _)) eqn:E4;
    [intros H; injection H as <- _; eauto|].
  destruct (FAILED (GetFrame wic _ _ _)) eqn:E5;
    [intros H; injection H as <- _; eauto|].
  destruct (GetSize wic _ _) as [[hr w] h].
  destruct (FAILED hr) eqn:E6; [intros H; injection H as <- _; eauto|].
  discriminate.
Qed.

Lemma copy_frame_result (jpegData : list byte) (w h : Z) (com : COM) :
  match fst (copy_frame wic jpegData w h com) with
  | Failure _ hr => FAILED hr = true
  | Success _ hbmp alpha => hbmp <> 0 /\ alpha = WTSAT_RGB
  end.
Proof.
  unfold copy_frame.
  destruct (CopyPixels wic _ _ _ _) as [hr pixels].
  destruct (FAILED hr) eqn:E; [exact E|].
  match goal with |- context [if ?c then _ else _] => destruct c eqn:Eb end.
  - reflexivity.
  - cbn [fst]. split; [apply Z.eqb_neq; exact Eb | reflexivity].
Qed.

End ResultCodes.

(** X4. The call returns [S_OK] or a failure code, and [S_OK] only
    together with a bitmap: a result that reports a failure carries a
    negative code, never the [S_FALSE] that [hr] starts with or that the
    end of the stream leaves in it, and a success carries a handle that
    is not null and the alpha type [WTSAT_RGB]. *)
Theorem X4_result_code
  (wic : WIC) (cx : Z) (pStream rest : IStream) (com com' : COM)
  (r : result) :
  GetThumbnail wic cx pStream com = Some (r, rest, com') ->
  match r with
  | Failure _ hr => FAILED hr = true /\ hresult r <> S_OK
  | Success _ hbmp alpha =>
      hbmp <> 0 /\ alpha = WTSAT_RGB /\ hresult r = S_OK
  end.
Proof.
  assert (Hneg : forall hr, FAILED hr = true -> hr <> S_OK).
  { intros hr H ->. discriminate. }
  unfold GetThumbnail.
  destruct (read_all pStream []) as [[hr buffer] rest'].
  destruct (FAILED hr) eqn:Eread.
  - intros H; injection H as <- _ _. split; [exact Eread | cbn; auto].
  - unfold thumbnail_of.
    destruct (value (locate buffer)) as [[e | jpegData] |];
      [| |discriminate].
    + intros H; injection H as <- _ _. split; [reflexivity | discriminate].
    + unfold decode.
      destruct (open_frame wic jpegData com) as [[r0 c] | [[w h] c]] eqn:Eo.
      * destruct (open_frame_failure wic _ _ Eo) as (e & hr0 & -> & Hf).
        intros H; injection H as <- _ _. split; [exact Hf | cbn; auto].
      * pose proof (copy_frame_result wic jpegData w h c) as Hc.
        destruct (copy_frame wic jpegData w h c) as [r0 c0].
        intros H; injection H as <- _ _. cbn [fst] in Hc.
        destruct r0 as [e hr0 | thumb hbmp alpha].
        -- split; [exact Hc | cbn; auto].
        -- destruct Hc as [Hb Ha]. repeat split; assumption.
Qed.

Lemma X4_witness :
  match Failure AtRead E_FAIL with
  | Failure _ hr => FAILED hr = true /\ hresult (Failure AtRead E_FAIL) <> S_OK
  | Success _ hbmp alpha =>
      hbmp <> 0 /\ alpha = WTSAT_RGB /\ hresult (Failure AtRead E_FAIL) = S_OK
  end.
Proof.
  apply (@X4_result_code header_codec 256
           [{| read_hr := E_FAIL; read_bytes := [] |}] [] idle idle).
  reflexivity.
Defined.

(** ** More on the locator (lines 100-116) *)

(** X5. What the locator hands to the decoder is never empty: it is the
    end of the document, at least one byte and at least ten bytes less
    than the document. *)
Theorem X5_payload_not_empty (buffer jpegData : list byte) :
  value (locate buffer) = Some (inr jpegData) ->
  jpegData <> []
  /\ (length jpegData + 10 <= length buffer)%nat
  /\ exists front, buffer = front ++ jpegData.
Proof.
  intros H.
  destruct (locate_outcome buffer) as [H' | [H' | (m & Hm & H')]];
    rewrite H' in H; try discriminate.
  injection H as <-.
  assert (Hlen : length (skipn (m + 10) buffer) = (length buffer - (m + 10))%nat)
    by apply length_skipn.
  split.
  - intros Hnil. rewrite Hnil in Hlen. simpl in Hlen. lia.
  - split; [lia|].
    exists (firstn (m + 10) buffer). symmetry. apply firstn_skipn.
Qed.

Lemma X5_witness :
  jpeg_header x00 x02 x00 x05 <> []
  /\ (length (jpeg_header x00 x02 x00 x05) + 10 <= length small_document)%nat
  /\ exists front, small_document = front ++ jpeg_header x00 x02 x00 x05.
Proof.
  apply (@X5_payload_not_empty small_document (jpeg_header x00 x02 x00 x05)).
  reflexivity.
Defined.

Lemma reads_app (t1 t2 : list event) :
  reads (t1 ++ t2) = (reads t1 + reads t2)%nat.
Proof. unfold reads. rewrite filter_app, length_app. reflexivity. Qed.

Lemma match_here_cost (buffer s : list byte) (last it : nat)
  (r : cmp_result) (t : list event) :
  match_here buffer last it s = Some (r, t) ->
  (reads t <= length s)%nat.
Proof.
  revert it r t; induction s as [|c s IH]; intros it r t; simpl.
  - intros H; injection H as _ <-. apply Nat.le_refl.
  - destruct (it =? last)%nat.
    + intros H; injection H as _ <-. cbn. lia.
    + unfold deref; simpl.
      destruct (Byte.eqb (nth it buffer x00) c).
      * simpl.
        destruct (match_here buffer last (S it) s) as [[r' t'] |] eqn:E;
          [|discriminate].
        intros H; injection H as _ <-.
        apply IH in E. cbn. unfold reads in E |- *. simpl. lia.
      * intros H; injection H as _ <-. cbn. lia.
Qed.

Lemma search_loop_cost (fuel : nat) (buffer s : list byte)
  (last first m : nat) (t : list event) :
  search_loop fuel buffer last first s = Some (m, t) ->
  (reads t <= fuel * length s)%nat.
Proof.
  revert first m t; induction fuel as [|fuel IH]; intros first m t; simpl;
    [discriminate|].
  destruct (match_here buffer last first s) as [[r t1] |] eqn:E;
    [|discriminate].
  apply match_here_cost in E. simpl.
  destruct r.
  - intros H; injection H as _ <-. rewrite app_nil_r. lia.
  - intros H; injection H as _ <-. rewrite app_nil_r. lia.
  - simpl.
    destruct (search_loop fuel buffer last (S first) s) as [[m' t2] |] eqn:E2;
      [|discriminate].
    intros H; injection H as _ <-. apply IH in E2.
    rewrite reads_app. cbn [reads filter length] in *.
    unfold reads in *. simpl. lia.
Qed.

Lemma copy_elements_cost (buffer : list byte) (n first : nat)
  (l : list byte) (t : list event) :
  copy_elements buffer first n = Some (l, t) -> reads t = n.
Proof.
  revert first l t; induction n as [|n IH]; intros first l t; simpl.
  - intros H; injection H as _ <-. reflexivity.
  - unfold deref; simpl.
    destruct (copy_elements buffer (S first) n) as [[l' t'] |] eqn:E;
      [|discriminate].
    simpl. intros H; injection H as _ <-. apply IH in E.
    rewrite app_nil_r. unfold reads in *. simpl. lia.
Qed.

(** X6. The locator is a linear scan: it reads at most nine elements for
    each of the positions of the document at which the tag is tried, and
    each element of the payload once; in all, no more than ten times the
    length of the document and nine. *)
Theorem X6_linear_scan (buffer : list byte)
  (r : LocateError + list byte) (t : list event) :
  locate buffer = Some (r, t) ->
  (reads t <= 10 * length buffer + 9)%nat.
Proof.
  intros H.
  remember (10 * length buffer + 9)%nat as bound eqn:Hbound.
  unfold locate, std_search in H.
  destruct (search_loop (S (length buffer)) buffer (length buffer) 0 endTag)
    as [[m t1] |] eqn:E; [|discriminate].
  apply search_loop_cost in E. rewrite endTag_length in E.
  simpl in H.
  destruct (m =? length buffer)%nat.
  - injection H as _ <-. rewrite app_nil_r. lia.
  - destruct (length buffer <=? m + 10)%nat.
    + simpl in H. injection H as _ <-. rewrite reads_app. cbn. lia.
    + unfold vector_of_range in H.
      destruct (copy_elements buffer (m + 10) (length buffer - (m + 10)))
        as [[l t2] |] eqn:E2; simpl in H; [|discriminate].
      apply copy_elements_cost in E2.
      injection H as _ <-.
      rewrite reads_app.
      change (Seek (m + 10) :: t2 ++ []) with ([Seek (m + 10)] ++ t2 ++ []).
      rewrite !reads_app. cbn. lia.
Qed.

Lemma X6_witness :
  (reads (events (locate small_document)) <= 10 * length small_document + 9)%nat.
Proof.
  apply (@X6_linear_scan small_document
           (inr (jpeg_header x00 x02 x00 x05))
           (events (locate small_document))).
  reflexivity.
Defined.

(** ** Reference counting (thumb_win32.cc, lines 23-80) *)

Lemma long_small (z : Z) : - 2 ^ 31 <= z < 2 ^ 31 -> long z = z.
Proof.
  intros H. unfold long. rewrite Z.mod_small by lia. lia.
Qed.

Lemma long_range (z : Z) : - 2 ^ 31 <= long z < 2 ^ 31.
Proof.
  unfold long. pose proof (Z.mod_pos_bound (z + 2 ^ 31) (2 ^ 32) ltac:(lia)).
  lia.
Qed.

(** Adding and taking away one reference cancel, wrap-around included. *)
Lemma decrement_increment (v : Z) :
  - 2 ^ 31 <= v < 2 ^ 31 ->
  InterlockedDecrement (InterlockedIncrement v) = v.
Proof.
  intros H. unfold InterlockedDecrement, InterlockedIncrement, long.
  replace ((v + 1 + 2 ^ 31) mod 2 ^ 32 - 2 ^ 31 - 1 + 2 ^ 31)
    with ((v + 1 + 2 ^ 31) mod 2 ^ 32 + (- 1)) by lia.
  rewrite Zplus_mod_idemp_l.
  replace (v + 1 + 2 ^ 31 + - 1) with (v + 2 ^ 31) by lia.
  rewrite Z.mod_small by lia. lia.
Qed.

Lemma uint_zero_long (z : Z) :
  - 2 ^ 31 <= z < 2 ^ 31 -> (uint z =? 0) = (z =? 0).
Proof.
  intros H. unfold uint.
  destruct (z =? 0) eqn:E.
  - apply Z.eqb_eq in E; subst z. reflexivity.
  - apply Z.eqb_neq in E. apply Z.eqb_neq. intros Hmod.
    destruct (Z.lt_ge_cases z 0) as [Hneg | Hpos].
    + rewrite <- (Z_mod_plus_full z 1 (2 ^ 32)) in Hmod.
      rewrite Z.mod_small in Hmod by lia. lia.
    + rewrite Z.mod_small in Hmod by lia. lia.
Qed.

Lemma QISearch_thumb (riid : IID) :
  QISearch CKisekiThumb.qit riid = true <->
  riid = IID_IUnknown \/ riid = IID_IInitializeWithStream
  \/ riid = IID_IThumbnailProvider.
Proof.
  destruct riid; cbn; split; intros H; try discriminate; try tauto;
    destruct H as [H | [H | H]]; discriminate.
Qed.

Lemma QISearch_factory (riid : IID) :
  QISearch CClassFactory.qit riid = true <->
  riid = IID_IUnknown \/ riid = IID_IClassFactory.
Proof.
  destruct riid; cbn; split; intros H; try discriminate; try tauto;
    destruct H as [H | H]; discriminate.
Qed.

(** X7. [CKisekiThumb_CreateInstance] hands out an object exactly when it
    answers [S_OK], which it does for [IUnknown], [IInitializeWithStream]
    and [IThumbnailProvider] when the allocation succeeds; the object then
    has one reference and no stream. For any other interface the answer
    is [E_NOINTERFACE] and the object made is deleted again; when the
    allocation fails the answer is [E_OUTOFMEMORY]. In no case is an
    object alive that the caller has no pointer to. *)
Theorem X7_create_instance (alloc : bool) (riid : IID) :
  exists hr ppv alive,
    CKisekiThumb_CreateInstance alloc riid = (hr, ppv, alive)
    /\ (hr = S_OK <->
        alloc = true
        /\ (riid = IID_IUnknown \/ riid = IID_IInitializeWithStream
            \/ riid = IID_IThumbnailProvider))
    /\ (hr = S_OK -> ppv = true /\ alive = Some CKisekiThumb.new)
    /\ (hr <> S_OK -> ppv = false /\ alive = None)
    /\ (hr = S_OK \/ hr = E_NOINTERFACE \/ hr = E_OUTOFMEMORY)
    /\ (hr = E_OUTOFMEMORY <-> alloc = false).
Proof.
  unfold CKisekiThumb_CreateInstance, CKisekiThumb.QueryInterface.
  destruct alloc.
  - pose proof (QISearch_thumb riid) as Hq.
    destruct (QISearch CKisekiThumb.qit riid).
    + do 3 eexists. split; [reflexivity|].
      split; [split; [intros _; split; [reflexivity | apply Hq; reflexivity]
                     | reflexivity]|].
      split; [intros _; split; reflexivity|].
      split; [intros H; exfalso; apply H; reflexivity|].
      split; [left; reflexivity|].
      split; discriminate.
    + do 3 eexists. split; [reflexivity|].
      split; [split; [discriminate|]|].
      { intros [_ H]. apply Hq in H. discriminate. }
      split; [discriminate|].
      split; [intros _; split; reflexivity|].
      split; [right; left; reflexivity|].
      split; discriminate.
  - do 3 eexists. split; [reflexivity|].
    split; [split; [discriminate | intros [H _]; discriminate]|].
    split; [discriminate|].
    split; [intros _; split; reflexivity|].
    split; [right; right; reflexivity|].
    split; reflexivity.
Qed.

(** X8. A provider is initialised at most once. The first [Initialize]
    whose stream answers the query for [IStream] with success stores that
    stream; from then on every [Initialize] answers [E_UNEXPECTED] and
    changes nothing, whatever stream it is given. An [Initialize] whose
    stream refuses the query returns that failure and leaves the provider
    without a stream, so that it can be initialised again. *)
Theorem X8_initialize_once
  (this : CKisekiThumb.object) (pStream other : IStream) (qi qi' : HRESULT) :
  CKisekiThumb._pStream this = None ->
  (SUCCEEDED qi = true ->
   let this' := snd (CKisekiThumb.Initialize this pStream qi) in
   fst (CKisekiThumb.Initialize this pStream qi) = qi
   /\ CKisekiThumb._pStream this' = Some pStream
   /\ CKisekiThumb._cRef this' = CKisekiThumb._cRef this
   /\ CKisekiThumb.Initialize this' other qi' = (E_UNEXPECTED, this'))
  /\ (SUCCEEDED qi = false ->
      CKisekiThumb.Initialize this pStream qi = (qi, this)).
Proof.
  intros Hnull. unfold CKisekiThumb.Initialize. rewrite Hnull.
  split; intros Hqi; rewrite Hqi; cbn; auto.
Qed.

Lemma X8_witness :
  (SUCCEEDED S_OK = true ->
   let this' :=
     snd (CKisekiThumb.Initialize CKisekiThumb.new small_answers S_OK) in
   fst (CKisekiThumb.Initialize CKisekiThumb.new small_answers S_OK) = S_OK
   /\ CKisekiThumb._pStream this' = Some small_answers
   /\ CKisekiThumb._cRef this' = CKisekiThumb._cRef CKisekiThumb.new
   /\ CKisekiThumb.Initialize this' [] S_OK = (E_UNEXPECTED, this'))
  /\ (SUCCEEDED S_OK = false ->
      CKisekiThumb.Initialize CKisekiThumb.new small_answers S_OK
      = (S_OK, CKisekiThumb.new)).
Proof.
  apply (@X8_initialize_once CKisekiThumb.new small_answers [] S_OK S_OK).
  reflexivity.
Defined.

Lemma thumb_release_step (this : CKisekiThumb.object) :
  1 < CKisekiThumb._cRef this < 2 ^ 31 ->
  CKisekiThumb.Release this
  = (CKisekiThumb._cRef this - 1,
     Some {| CKisekiThumb._cRef := CKisekiThumb._cRef this - 1;
             CKisekiThumb._pStream := CKisekiThumb._pStream this |},
     None).
Proof.
  intros H. unfold CKisekiThumb.Release, InterlockedDecrement.
  rewrite long_small by lia. rewrite uint_small by lia.
  replace (CKisekiThumb._cRef this - 1 =? 0) with false
    by (symmetry; apply Z.eqb_neq; lia).
  reflexivity.
Qed.

Lemma thumb_release_last (this : CKisekiThumb.object) :
  CKisekiThumb._cRef this = 1 ->
  CKisekiThumb.Release this = (0, None, CKisekiThumb._pStream this).
Proof.
  intros H. unfold CKisekiThumb.Release. rewrite H. reflexivity.
Qed.

Lemma add_refs_count (n : nat) (this : CKisekiThumb.object) :
  - 2 ^ 31 <= CKisekiThumb._cRef this ->
  CKisekiThumb._cRef this + Z.of_nat n < 2 ^ 31 ->
  add_refs n this
  = {| CKisekiThumb._cRef := CKisekiThumb._cRef this + Z.of_nat n;
       CKisekiThumb._pStream := CKisekiThumb._pStream this |}.
Proof.
  revert this; induction n as [|n IH]; intros [c s] Hlo Hhi;
    cbn [CKisekiThumb._cRef CKisekiThumb._pStream] in *.
  - cbn. f_equal. lia.
  - cbn [add_refs CKisekiThumb.AddRef snd].
    cbn [CKisekiThumb._cRef CKisekiThumb._pStream].
    unfold InterlockedIncrement. rewrite long_small by lia.
    rewrite IH; cbn [CKisekiThumb._cRef CKisekiThumb._pStream]; try lia.
    f_equal. lia.
Qed.

Lemma release_refs_S (n : nat) (this : CKisekiThumb.object) :
  release_refs (S n) this
  = match CKisekiThumb.Release this with
    | (_, Some this', _) => release_refs n this'
    | (_, None, Some pStream) => (None, [pStream])
    | (_, None, None) => (None, [])
    end.
Proof. reflexivity. Qed.

Lemma release_refs_below (j : nat) (this : CKisekiThumb.object) :
  Z.of_nat j < CKisekiThumb._cRef this < 2 ^ 31 ->
  release_refs j this
  = (Some {| CKisekiThumb._cRef := CKisekiThumb._cRef this - Z.of_nat j;
             CKisekiThumb._pStream := CKisekiThumb._pStream this |}, []).
Proof.
  revert this; induction j as [|j IH]; intros [c s] H;
    cbn [CKisekiThumb._cRef CKisekiThumb._pStream] in *.
  - cbn. do 2 f_equal. f_equal. lia.
  - rewrite release_refs_S, thumb_release_step by (cbn; lia).
    cbn [CKisekiThumb._cRef CKisekiThumb._pStream].
    rewrite IH; cbn [CKisekiThumb._cRef CKisekiThumb._pStream]; try lia.
    do 2 f_equal. f_equal. lia.
Qed.

Lemma release_refs_exact (j : nat) (this : CKisekiThumb.object) :
  CKisekiThumb._cRef this = Z.of_nat (S j) ->
  Z.of_nat (S j) < 2 ^ 31 ->
  release_refs (S j) this
  = (None,
     match CKisekiThumb._pStream this with
     | Some pStream => [pStream]
     | None => []
     end).
Proof.
  revert this; induction j as [|j IH]; intros [c s] Hc Hmax;
    cbn [CKisekiThumb._cRef CKisekiThumb._pStream] in *.
  - rewrite release_refs_S, thumb_release_last by (cbn; lia).
    cbn. destruct s; reflexivity.
  - rewrite release_refs_S, thumb_release_step by (cbn; lia).
    cbn [CKisekiThumb._cRef CKisekiThumb._pStream].
    rewrite IH; cbn [CKisekiThumb._cRef CKisekiThumb._pStream];
      [reflexivity | lia | lia].
Qed.

(** X9. References on a provider balance. From a provider with one
    reference, after [n] calls of [AddRef] any [k <= n] calls of [Release]
    leave it alive with [1 + n - k] references and its stream untouched;
    the next [Release] after [n] of them brings the count to zero, deletes
    the provider, and releases the stream if [Initialize] had stored one,
    and only then. *)
Theorem X9_references_balance
  (this : CKisekiThumb.object) (n k : nat) :
  CKisekiThumb._cRef this = 1 ->
  Z.of_nat n < 2 ^ 31 - 1 ->
  ((k <= n)%nat ->
   release_refs k (add_refs n this)
   = (Some {| CKisekiThumb._cRef := 1 + Z.of_nat n - Z.of_nat k;
              CKisekiThumb._pStream := CKisekiThumb._pStream this |}, []))
  /\ release_refs (S n) (add_refs n this)
     = (None,
        match CKisekiThumb._pStream this with
        | Some pStream => [pStream]
        | None => []
        end).
Proof.
  intros Hone Hn.
  rewrite add_refs_count by lia. rewrite Hone. split.
  - intros Hk. rewrite release_refs_below;
      cbn [CKisekiThumb._cRef CKisekiThumb._pStream]; [reflexivity | lia].
  - rewrite release_refs_exact;
      cbn [CKisekiThumb._cRef CKisekiThumb._pStream]; [reflexivity | lia | lia].
Qed.

Lemma X9_witness :
  ((2 <= 3)%nat ->
   release_refs 2
     (add_refs 3 (snd (CKisekiThumb.Initialize CKisekiThumb.new
                         small_answers S_OK)))
   = (Some {| CKisekiThumb._cRef := 1 + Z.of_nat 3 - Z.of_nat 2;
              CKisekiThumb._pStream := Some small_answers |}, []))
  /\ release_refs 4
       (add_refs 3 (snd (CKisekiThumb.Initialize CKisekiThumb.new
                           small_answers S_OK)))
     = (None, [small_answers]).
Proof.
  apply (@X9_references_balance
           (snd (CKisekiThumb.Initialize CKisekiThumb.new small_answers S_OK))
           3 2).
  - reflexivity.
  - vm_compute. reflexivity.
Defined.

(** ** The class factory and the module count
       (thumb_win32_dll.cc, lines 27-119) *)

Lemma GUID_eqb_eq (a b : GUID) : GUID_eqb a b = true <-> a = b.
Proof.
  unfold GUID_eqb. destruct a as [a1 a2 a3 a4], b as [b1 b2 b3 b4].
  cbn [Data1 Data2 Data3 Data4].
  destruct (list_eq_dec Z.eq_dec a4 b4) as [E4 | E4].
  - rewrite andb_true_r, !andb_true_iff, !Z.eqb_eq.
    split.
    + intros [[-> ->] ->]. subst. reflexivity.
    + intros H; injection H as -> -> -> _. auto.
  - rewrite andb_false_r. split; [discriminate|].
    intros H; injection H as _ _ _ H4. contradiction.
Qed.

Lemma long_add_idemp (a b : Z) : long (long a + b) = long (a + b).
Proof.
  unfold long.
  replace ((a + 2 ^ 31) mod 2 ^ 32 - 2 ^ 31 + b + 2 ^ 31)
    with ((a + 2 ^ 31) mod 2 ^ 32 + b) by lia.
  rewrite Zplus_mod_idemp_l.
  replace (a + 2 ^ 31 + b) with (a + b + 2 ^ 31) by lia. reflexivity.
Qed.

Lemma factory_release_last (pfn : PFNCREATEINSTANCE) (g : Z) :
  - 2 ^ 31 <= g < 2 ^ 31 ->
  CClassFactory.Release
    {| CClassFactory._cRef := 1; CClassFactory._pfnCreate := pfn |}
    (DllAddRef g)
  = (0, None, g).
Proof.
  intros H. unfold CClassFactory.Release, DllRelease, DllAddRef.
  cbn [CClassFactory._cRef]. rewrite decrement_increment by assumption.
  reflexivity.
Qed.

Lemma get_class_object_found (riid : IID) (g : Z) :
  - 2 ^ 31 <= g < 2 ^ 31 ->
  DllGetClassObject CLSID_KisekiThumbHandler riid true g
  = if QISearch CClassFactory.qit riid
    then (S_OK, true,
          Some {| CClassFactory._cRef := 1;
                  CClassFactory._pfnCreate := CKisekiThumb_CreateInstance |},
          DllAddRef g)
    else (E_NOINTERFACE, false, None, g).
Proof.
  intros H. unfold DllGetClassObject. cbn [c_rgClassObjectInit
    CClassFactory_CreateInstance pClsid pfnCreate].
  replace (GUID_eqb CLSID_KisekiThumbHandler CLSID_KisekiThumbHandler)
    with true by reflexivity.
  unfold CClassFactory.new, CClassFactory.QueryInterface.
  destruct (QISearch CClassFactory.qit riid).
  - reflexivity.
  - rewrite factory_release_last by assumption. reflexivity.
Qed.

(** X10. [DllGetClassObject] answers [S_OK] exactly for the class
    identifier of the handler asked for [IUnknown] or [IClassFactory]
    when the allocation succeeds; the caller then gets a factory with one
    reference, and the module count is one higher. In every other case
    the caller gets no pointer, no factory stays alive and the module
    count is what it was, also when a factory was made and deleted again
    because the interface is not one of its own; an identifier that is
    not the handler's is answered [CLASS_E_CLASSNOTAVAILABLE]. *)
Theorem X10_get_class_object
  (clsid : GUID) (riid : IID) (alloc : bool) (g : Z) :
  - 2 ^ 31 <= g < 2 ^ 31 ->
  exists hr ppv alive g',
    DllGetClassObject clsid riid alloc g = (hr, ppv, alive, g')
    /\ (hr = S_OK <->
        clsid = CLSID_KisekiThumbHandler /\ alloc = true
        /\ (riid = IID_IUnknown \/ riid = IID_IClassFactory))
    /\ (hr = S_OK ->
        ppv = true
        /\ alive = Some {| CClassFactory._cRef := 1;
                           CClassFactory._pfnCreate :=
                             CKisekiThumb_CreateInstance |}
        /\ g' = DllAddRef g)
    /\ (hr <> S_OK -> ppv = false /\ alive = None /\ g' = g)
    /\ (clsid <> CLSID_KisekiThumbHandler ->
        hr = CLASS_E_CLASSNOTAVAILABLE).
Proof.
  intros Hg.
  destruct (GUID_eqb clsid CLSID_KisekiThumbHandler) eqn:Eid.
  - apply GUID_eqb_eq in Eid; subst clsid.
    destruct alloc.
    + rewrite get_class_object_found by assumption.
      pose proof (QISearch_factory riid) as Hq.
      destruct (QISearch CClassFactory.qit riid).
      * do 4 eexists. split; [reflexivity|].
        split; [split; [intros _; repeat split; apply Hq; reflexivity
                       | reflexivity]|].
        split; [intros _; repeat split|].
        split; [intros H; exfalso; apply H; reflexivity|].
        intros H; exfalso; apply H; reflexivity.
      * do 4 eexists. split; [reflexivity|].
        split; [split; [discriminate|]|].
        { intros (_ & _ & H). apply Hq in H. discriminate. }
        split; [discriminate|].
        split; [intros _; repeat split|].
        intros H; exfalso; apply H; reflexivity.
    + do 4 eexists. split; [reflexivity|].
      split; [split; [discriminate | intros (_ & H & _); discriminate]|].
      split; [discriminate|].
      split; [intros _; repeat split|].
      intros H; exfalso; apply H; reflexivity.
  - assert (Hne : clsid <> CLSID_KisekiThumbHandler).
    { intros H. apply GUID_eqb_eq in H. congruence. }
    unfold DllGetClassObject.
    cbn [c_rgClassObjectInit CClassFactory_CreateInstance pClsid].
    rewrite Eid.
    do 4 eexists. split; [reflexivity|].
    split; [split; [discriminate | intros (H & _); contradiction]|].
    split; [discriminate|].
    split; [intros _; repeat split|].
    reflexivity.
Qed.

Lemma X10_witness :
  exists hr ppv alive g',
    DllGetClassObject CLSID_KisekiThumbHandler IID_IClassFactory true 0
      = (hr, ppv, alive, g')
    /\ (hr = S_OK <->
        CLSID_KisekiThumbHandler = CLSID_KisekiThumbHandler /\ true = true
        /\ (IID_IClassFactory = IID_IUnknown
            \/ IID_IClassFactory = IID_IClassFactory))
    /\ (hr = S_OK ->
        ppv = true
        /\ alive = Some {| CClassFactory._cRef := 1;
                           CClassFactory._pfnCreate :=
                             CKisekiThumb_CreateInstance |}
        /\ g' = DllAddRef 0)
    /\ (hr <> S_OK -> ppv = false /\ alive = None /\ g' = 0)
    /\ (CLSID_KisekiThumbHandler <> CLSID_KisekiThumbHandler ->
        hr = CLASS_E_CLASSNOTAVAILABLE).
Proof.
  apply (@X10_get_class_object CLSID_KisekiThumbHandler IID_IClassFactory
           true 0).
  lia.
Defined.

(** X11. The module stays loaded for as long as a factory lives: after
    a successful [DllGetClassObject] [DllCanUnloadNow] answers [S_FALSE],
    and the [Release] of the factory brings the module count back to
    what it was before, so that a module that could be unloaded before
    can be unloaded again. *)
Theorem X11_factory_holds_module (riid : IID) (g : Z) :
  0 <= g < 2 ^ 31 - 1 ->
  riid = IID_IUnknown \/ riid = IID_IClassFactory ->
  exists pClassFactory g',
    DllGetClassObject CLSID_KisekiThumbHandler riid true g
      = (S_OK, true, Some pClassFactory, g')
    /\ DllCanUnloadNow g' = S_FALSE
    /\ CClassFactory.Release pClassFactory g' = (0, None, g)
    /\ (DllCanUnloadNow g = S_OK <-> g = 0).
Proof.
  intros Hg Hriid.
  rewrite get_class_object_found by lia.
  apply QISearch_factory in Hriid. rewrite Hriid.
  do 2 eexists. split; [reflexivity|].
  split.
  - unfold DllCanUnloadNow, DllAddRef, InterlockedIncrement.
    rewrite long_small by lia.
    replace (g + 1 =? 0) with false by (symmetry; apply Z.eqb_neq; lia).
    reflexivity.
  - split; [apply factory_release_last; lia|].
    unfold DllCanUnloadNow. destruct (g =? 0) eqn:E.
    + apply Z.eqb_eq in E. split; auto.
    + apply Z.eqb_neq in E. split; [discriminate | contradiction].
Qed.

Lemma X11_witness :
  exists pClassFactory g',
    DllGetClassObject CLSID_KisekiThumbHandler IID_IUnknown true 0
      = (S_OK, true, Some pClassFactory, g')
    /\ DllCanUnloadNow g' = S_FALSE
    /\ CClassFactory.Release pClassFactory g' = (0, None, 0)
    /\ (DllCanUnloadNow 0 = S_OK <-> 0 = 0).
Proof.
  apply (@X11_factory_holds_module IID_IUnknown 0).
  - lia.
  - left. reflexivity.
Defined.

(** X12. [LockServer] counts: after any run of calls the module count is
    what it was, plus the locks, minus the unlocks, as a [long]; each call
    answers [S_OK]. *)
Theorem X12_lock_server_counts (locks : list bool) (g : Z) :
  - 2 ^ 31 <= g < 2 ^ 31 ->
  lock_all locks g
  = long (g
          + Z.of_nat (count_occ bool_dec locks true)
          - Z.of_nat (count_occ bool_dec locks false))
  /\ forall fLock g0, fst (CClassFactory.LockServer fLock g0) = S_OK.
Proof.
  intros Hg. split; [|intros [] g0; reflexivity].
  revert g Hg; induction locks as [|fLock locks IH]; intros g Hg.
  - cbn. rewrite long_small by lia. lia.
  - cbn [lock_all]. rewrite IH.
    + destruct fLock; cbn [CClassFactory.LockServer snd count_occ];
        unfold DllAddRef, DllRelease, InterlockedIncrement,
          InterlockedDecrement.
      * destruct (bool_dec true true) as [_ | N]; [|contradiction].
        destruct (bool_dec true false) as [N | _]; [discriminate|].
        match goal with
        | |- long (long ?a + ?b - ?c) = _ =>
            replace (long a + b - c) with (long a + (b - c)) by lia
        end.
        rewrite long_add_idemp. f_equal. lia.
      * destruct (bool_dec false true) as [N | _]; [discriminate|].
        destruct (bool_dec false false) as [_ | N]; [|contradiction].
        match goal with
        | |- long (long ?a + ?b - ?c) = _ =>
            replace (long a + b - c) with (long a + (b - c)) by lia
        end.
        rewrite long_add_idemp. f_equal. lia.
    + destruct fLock; cbn [CClassFactory.LockServer snd];
        unfold DllAddRef, DllRelease, InterlockedIncrement,
          InterlockedDecrement; apply long_range.
Qed.

Lemma X12_witness :
  lock_all [true; true; false] 0
  = long (0
          + Z.of_nat (count_occ bool_dec [true; true; false] true)
          - Z.of_nat (count_occ bool_dec [true; true; false] false))
  /\ forall fLock g0, fst (CClassFactory.LockServer fLock g0) = S_OK.
Proof.
  apply (@X12_lock_server_counts [true; true; false] 0). lia.
Defined.

(** X13. A provider does not hold the module. The factory makes a
    provider with one reference for [IUnknown], [IInitializeWithStream]
    and [IThumbnailProvider], and refuses aggregation with
    [CLASS_E_NOAGGREGATION]; making the provider leaves the module count
    alone, so that once the factory is released the count is what it was
    before [DllGetClassObject], and a module that had no reference
    answers [S_OK] to [DllCanUnloadNow] while the provider is alive. *)
Theorem X13_provider_does_not_hold_module (riid riid' : IID) (g : Z) :
  - 2 ^ 31 <= g < 2 ^ 31 ->
  riid = IID_IUnknown \/ riid = IID_IClassFactory ->
  riid' = IID_IUnknown \/ riid' = IID_IInitializeWithStream
  \/ riid' = IID_IThumbnailProvider ->
  exists pClassFactory g' pThumb,
    DllGetClassObject CLSID_KisekiThumbHandler riid true g
      = (S_OK, true, Some pClassFactory, g')
    /\ CClassFactory.CreateInstance pClassFactory false true riid'
       = (S_OK, true, Some pThumb)
    /\ CKisekiThumb._cRef pThumb = 1
    /\ CKisekiThumb._pStream pThumb = None
    /\ CClassFactory.CreateInstance pClassFactory true true riid'
       = (CLASS_E_NOAGGREGATION, false, None)
    /\ CClassFactory.Release pClassFactory g' = (0, None, g)
    /\ (g = 0 -> DllCanUnloadNow g = S_OK).
Proof.
  intros Hg Hriid Hriid'.
  rewrite get_class_object_found by lia.
  apply QISearch_factory in Hriid. rewrite Hriid.
  apply QISearch_thumb in Hriid'.
  do 3 eexists. split; [reflexivity|].
  cbn [CClassFactory.CreateInstance CClassFactory._pfnCreate].
  unfold CKisekiThumb_CreateInstance, CKisekiThumb.QueryInterface.
  rewrite Hriid'.
  split; [reflexivity|]. split; [reflexivity|]. split; [reflexivity|].
  split; [reflexivity|].
  split; [apply factory_release_last; lia|].
  intros ->. reflexivity.
Qed.

Lemma X13_witness :
  exists pClassFactory g' pThumb,
    DllGetClassObject CLSID_KisekiThumbHandler IID_IClassFactory true 0
      = (S_OK, true, Some pClassFactory, g')
    /\ CClassFactory.CreateInstance pClassFactory false true
         IID_IThumbnailProvider
       = (S_OK, true, Some pThumb)
    /\ CKisekiThumb._cRef pThumb = 1
    /\ CKisekiThumb._pStream pThumb = None
    /\ CClassFactory.CreateInstance pClassFactory true true
         IID_IThumbnailProvider
       = (CLASS_E_NOAGGREGATION, false, None)
    /\ CClassFactory.Release pClassFactory g' = (0, None, 0)
    /\ (0 = 0 -> DllCanUnloadNow 0 = S_OK).
Proof.
  apply (@X13_provider_does_not_hold_module IID_IClassFactory
           IID_IThumbnailProvider 0).
  - lia.
  - right. reflexivity.
  - right. right. reflexivity.
Defined.

(** ** Registration (thumb_win32_dll.cc, lines 121-234) *)

Lemma lor_win32_facility (x : Z) :
  Z.lor (Z.land x 0xFFFF) 0x80070000 = x mod 2 ^ 16 + 0x80070000.
Proof.
  change 0xFFFF with (Z.ones 16). rewrite Z.land_ones by lia.
  rewrite <- Z.lxor_lor, <- Z.add_nocarry_lxor; try reflexivity.
  - rewrite <- (Z.land_ones x 16) by lia.
    rewrite <- Z.land_assoc. change (Z.land (Z.ones 16) 0x80070000) with 0.
    apply Z.land_0_r.
  - rewrite <- (Z.land_ones x 16) by lia.
    rewrite <- Z.land_assoc. change (Z.land (Z.ones 16) 0x80070000) with 0.
    apply Z.land_0_r.
Qed.

(** A status is turned into a success exactly when it is
    [ERROR_SUCCESS]; every other status becomes a failure. *)
Lemma HRESULT_FROM_WIN32_succeeded (x : Z) :
  SUCCEEDED (HRESULT_FROM_WIN32 x) = (x =? 0).
Proof.
  unfold HRESULT_FROM_WIN32, SUCCEEDED.
  destruct (x <=? 0) eqn:E.
  - apply Z.leb_le in E. destruct (x =? 0) eqn:E0.
    + apply Z.eqb_eq in E0; subst. reflexivity.
    + apply Z.eqb_neq in E0. apply Z.leb_gt. lia.
  - apply Z.leb_gt in E.
    replace (x =? 0) with false by (symmetry; apply Z.eqb_neq; lia).
    rewrite lor_win32_facility.
    pose proof (Z.mod_pos_bound x (2 ^ 16) ltac:(lia)).
    apply Z.leb_gt. unfold long.
    replace (x mod 2 ^ 16 + 0x80070000 + 2 ^ 31)
      with (x mod 2 ^ 16 + 0x70000 + 1 * 2 ^ 32) by lia.
    rewrite Z_mod_plus_full. rewrite Z.mod_small by lia. lia.
Qed.

Lemma HRESULT_FROM_WIN32_failed (x : Z) :
  FAILED (HRESULT_FROM_WIN32 x) = negb (x =? 0).
Proof.
  pose proof (HRESULT_FROM_WIN32_succeeded x) as H.
  unfold SUCCEEDED in H. unfold FAILED.
  destruct (x =? 0).
  - apply Z.leb_le in H. cbn. apply Z.ltb_ge. assumption.
  - apply Z.leb_gt in H. cbn. apply Z.ltb_lt. assumption.
Qed.

Lemma HRESULT_FROM_WIN32_ok (x : Z) :
  SUCCEEDED (HRESULT_FROM_WIN32 x) = true -> HRESULT_FROM_WIN32 x = S_OK.
Proof.
  rewrite HRESULT_FROM_WIN32_succeeded. intros H.
  apply Z.eqb_eq in H; subst. reflexivity.
Qed.

Section RegistryFacts.

Variable sys : Win32.

Lemma open_handles_app (before a b : list call) (n : Z) :
  open_handles sys before (a ++ b) n
  = open_handles sys (before ++ a) b (open_handles sys before a n).
Proof.
  revert before n; induction a as [|c a IH]; intros before n.
  - cbn. rewrite app_nil_r. reflexivity.
  - cbn [app open_handles]. rewrite IH, <- app_assoc. reflexivity.
Qed.

Lemma entry_calls_no_notification (entries : list REGISTRY_ENTRY) :
  ~ In SHChangeNotify_ASSOCCHANGED (concat (map entry_calls entries)).
Proof.
  induction entries as [|e entries IH]; cbn [map concat]; [intros []|].
  intros H. apply in_app_or in H as [H | H]; [|exact (IH H)].
  unfold entry_calls in H. destruct (entry_value e) as [[d size] |];
    cbn in H; intuition discriminate.
Qed.

(** One entry whose value the code supports: either the key cannot be
    created and nothing else is called, or the value is set and the key
    closed; no handle stays open. *)
Lemma create_and_set_supported (e : REGISTRY_ENTRY) (made : list call) :
  entry_value e <> None ->
  exists hr n,
    CreateRegKeyAndSetValue sys e made
      = (Returned hr, made ++ firstn n (entry_calls e))
    /\ open_handles sys made (firstn n (entry_calls e)) 0 = 0
    /\ (SUCCEEDED hr = true ->
        hr = S_OK /\ firstn n (entry_calls e) = entry_calls e).
Proof.
  intros Hsup.
  unfold CreateRegKeyAndSetValue, entry_calls.
  set (c := RegCreateKeyExW (hkeyRoot e) (pszKeyName e)).
  destruct (SUCCEEDED (HRESULT_FROM_WIN32 (reg_status sys made c))) eqn:Ec.
  - assert (Hrun : exists d size,
               entry_value e = Some (d, size)
               /\ (if dwValueType e =? REG_SZ
                   then match pszData e with
                        | None => (NullDereference, made ++ [c])
                        | Some s =>
                            set_value_and_close sys e (wide_string s)
                              (uint (uint (uint (Z.of_nat (String.length s)) + 1)
                                     * 2)) (made ++ [c])
                        end
                   else if dwValueType e =? REG_DWORD
                        then set_value_and_close sys e
                               (dword_bytes (uint (dwData e))) 4 (made ++ [c])
                        else (Returned E_INVALIDARG, made ++ [c]))
                  = set_value_and_close sys e d size (made ++ [c])).
    { unfold entry_value in *.
      destruct (dwValueType e =? REG_SZ).
      - destruct (pszData e) as [s|]; [|congruence].
        eexists; eexists; split; reflexivity.
      - destruct (dwValueType e =? REG_DWORD); [|congruence].
        eexists; eexists; split; reflexivity. }
    destruct Hrun as (d & size & Hv & Hrun). cbv zeta. rewrite Hrun, Hv.
    unfold set_value_and_close.
    eexists; exists 3%nat. cbn [firstn].
    rewrite <- app_assoc. split; [reflexivity|].
    split.
    + cbn [open_handles]. fold c. rewrite Ec. unfold c. lia.
    + intros H. split; [apply HRESULT_FROM_WIN32_ok; exact H | reflexivity].
  - eexists; exists 1%nat.
    cbn [firstn]. split; [reflexivity|].
    split.
    + cbn [open_handles]. fold c. rewrite Ec. reflexivity.
    + intros H. rewrite H in Ec. discriminate.
Qed.

Lemma register_entries_failed (entries : list REGISTRY_ENTRY)
  (hr : HRESULT) (made : list call) :
  SUCCEEDED hr = false ->
  register_entries sys entries hr made = (Returned hr, made).
Proof.
  intros H. destruct entries; cbn [register_entries]; [reflexivity|].
  rewrite H. reflexivity.
Qed.

Lemma in_firstn_in {A : Type} (x : A) (n : nat) (l : list A) :
  In x (firstn n l) -> In x l.
Proof.
  revert n; induction l as [|c l IH]; intros [|n]; cbn; try tauto.
  intros [H | H]; [left; exact H | right; exact (IH n H)].
Qed.

Lemma firstn_app_short {A : Type} (n : nat) (a b : list A) :
  (n <= length a)%nat -> firstn n a = firstn n (a ++ b).
Proof.
  intros H. rewrite firstn_app.
  replace (n - length a)%nat with 0%nat by lia.
  cbn. rewrite app_nil_r. reflexivity.
Qed.

(** The loop over entries with supported values: the calls made are the
    beginning of the calls of a registration without failure, all of
    them when the result is a success; no handle stays open. *)
Lemma register_entries_run (entries : list REGISTRY_ENTRY)
  (made : list call) :
  Forall (fun e => entry_value e <> None) entries ->
  exists hr n,
    register_entries sys entries S_OK made
      = (Returned hr, made ++ firstn n (concat (map entry_calls entries)))
    /\ open_handles sys made
         (firstn n (concat (map entry_calls entries))) 0 = 0
    /\ (SUCCEEDED hr = true ->
        hr = S_OK
        /\ firstn n (concat (map entry_calls entries))
           = concat (map entry_calls entries))
    /\ (SUCCEEDED hr = true \/ FAILED hr = true).
Proof.
  intros Hall. revert made.
  induction Hall as [|e entries He Hall IH]; intros made.
  - exists S_OK, 0%nat. cbn. rewrite app_nil_r. auto.
  - cbn [register_entries SUCCEEDED S_OK Z.leb Z.compare].
    change (SUCCEEDED S_OK) with true. cbn [map concat].
    destruct (create_and_set_supported e made He) as (hr & n & Hrun & Hh & Hs).
    rewrite Hrun.
    destruct (SUCCEEDED hr) eqn:Ehr.
    + destruct (Hs eq_refl) as [-> Hfull]. rewrite Hfull in *.
      destruct (IH (made ++ entry_calls e)) as (hr' & n' & Hrun' & Hh' & Hs' & Hd').
      rewrite Hrun'.
      exists hr', (length (entry_calls e) + n')%nat.
      rewrite firstn_app_2, <- app_assoc.
      split; [reflexivity|].
      split; [rewrite open_handles_app, Hh; exact Hh'|].
      split; [|exact Hd'].
      intros H. destruct (Hs' H) as [-> Hfull']. rewrite Hfull'. auto.
    + rewrite register_entries_failed by exact Ehr.
      assert (Hn : (length (firstn n (entry_calls e)) <= length (entry_calls e))%nat)
        by (rewrite length_firstn; lia).
      exists hr, (length (firstn n (entry_calls e))).
      assert (Hpre : firstn (length (firstn n (entry_calls e)))
                       (entry_calls e ++ concat (map entry_calls entries))
                     = firstn n (entry_calls e)).
      { rewrite <- firstn_app_short by exact Hn.
        rewrite length_firstn, <- firstn_firstn, firstn_all. reflexivity. }
      rewrite Hpre.
      split; [reflexivity|]. split; [exact Hh|].
      split; [intros H; congruence|].
      right. unfold SUCCEEDED in Ehr. unfold FAILED.
      apply Z.leb_gt in Ehr. apply Z.ltb_lt. exact Ehr.
Qed.

Lemma registry_entries_supported (szModuleName : string) :
  Forall (fun e => entry_value e <> None) (rgRegistryEntries szModuleName).
Proof. repeat constructor; discriminate. Qed.

(** What is refused has a status other than [ERROR_SUCCESS]. *)
Lemma first_refusal_status (calls before : list call) (i : nat)
  (status : Z) :
  first_refusal sys before calls = Some (i, status) -> status <> 0.
Proof.
  revert before i; induction calls as [|c calls IH]; intros before i;
    cbn [first_refusal]; [discriminate|].
  destruct (status_checked c
            && negb (reg_status sys before c =? ERROR_SUCCESS)) eqn:E.
  - intros H; injection H as _ <-.
    apply andb_true_iff in E as [_ E]. apply negb_true_iff in E.
    apply Z.eqb_neq in E. exact E.
  - destruct (first_refusal sys (before ++ [c]) calls) as [[j st] |] eqn:Er;
      [|discriminate].
    intros H; injection H as _ <-. exact (IH _ _ Er).
Qed.

Lemma through_close_later (a b c : call) (i : nat) (calls : list call) :
  through_close (S (S (S i))) (a :: b :: c :: calls)
  = a :: b :: c :: through_close i calls.
Proof. reflexivity. Qed.

(** One entry with a supported value, by the status of its two calls. *)
Lemma create_and_set_by_status (e : REGISTRY_ENTRY) (made : list call)
  (lpData : value_data) (size : Z) :
  entry_value e = Some (lpData, size) ->
  let create := RegCreateKeyExW (hkeyRoot e) (pszKeyName e) in
  let set := RegSetValueExW (hkeyRoot e) (pszKeyName e) (pszValueName e)
               (dwValueType e) lpData size in
  CreateRegKeyAndSetValue sys e made
  = if reg_status sys made create =? ERROR_SUCCESS
    then (Returned (HRESULT_FROM_WIN32 (reg_status sys (made ++ [create]) set)),
          made ++ [create; set; RegCloseKey (hkeyRoot e) (pszKeyName e)])
    else (Returned (HRESULT_FROM_WIN32 (reg_status sys made create)),
          made ++ [create]).
Proof.
  intros Hv create set. subst create set.
  unfold CreateRegKeyAndSetValue. cbv zeta.
  rewrite HRESULT_FROM_WIN32_succeeded.
  change ERROR_SUCCESS with 0.
  destruct (reg_status sys made
              (RegCreateKeyExW (hkeyRoot e) (pszKeyName e)) =? 0);
    [|reflexivity].
  unfold entry_value in Hv.
  destruct (dwValueType e =? REG_SZ).
  - destruct (pszData e) as [s|]; [|discriminate].
    injection Hv as <- <-.
    unfold set_value_and_close. rewrite <- app_assoc. reflexivity.
  - destruct (dwValueType e =? REG_DWORD); [|discriminate].
    injection Hv as <- <-.
    unfold set_value_and_close. rewrite <- app_assoc. reflexivity.
Qed.

(** The loop over entries with supported values, by the first call the
    registry refuses. *)
Lemma register_entries_first_refusal (entries : list REGISTRY_ENTRY) :
  Forall (fun e => entry_value e <> None) entries ->
  forall made,
    register_entries sys entries S_OK made
    = match first_refusal sys made (concat (map entry_calls entries)) with
      | None =>
          (Returned S_OK, made ++ concat (map entry_calls entries))
      | Some (i, status) =>
          (Returned (HRESULT_FROM_WIN32 status),
           made ++ through_close i (concat (map entry_calls entries)))
      end.
Proof.
  induction 1 as [|e entries He Hall IH]; intros made.
  - cbn. rewrite app_nil_r. reflexivity.
  - destruct (entry_value e) as [[lpData size] |] eqn:Hv; [|congruence].
    cbn [register_entries map concat]. change (SUCCEEDED S_OK) with true.
    cbv iota. rewrite (create_and_set_by_status e made Hv). cbv zeta.
    assert (Hcalls : entry_calls e
                     = [RegCreateKeyExW (hkeyRoot e) (pszKeyName e);
                        RegSetValueExW (hkeyRoot e) (pszKeyName e)
                          (pszValueName e) (dwValueType e) lpData size;
                        RegCloseKey (hkeyRoot e) (pszKeyName e)])
      by (unfold entry_calls; rewrite Hv; reflexivity).
    rewrite Hcalls. cbn [app first_refusal status_checked].
    cbn [andb].
    destruct (reg_status sys made
                (RegCreateKeyExW (hkeyRoot e) (pszKeyName e))
              =? ERROR_SUCCESS) eqn:Ec; cbn [negb].
    + destruct (reg_status sys
                  (made ++ [RegCreateKeyExW (hkeyRoot e) (pszKeyName e)])
                  (RegSetValueExW (hkeyRoot e) (pszKeyName e)
                     (pszValueName e) (dwValueType e) lpData size)
                =? ERROR_SUCCESS) eqn:Es; cbn [negb].
      * apply Z.eqb_eq in Es. rewrite Es.
        change (HRESULT_FROM_WIN32 ERROR_SUCCESS) with S_OK.
        rewrite IH. rewrite <- !app_assoc. cbn [app].
        destruct (first_refusal sys
                    (made
                     ++ [RegCreateKeyExW (hkeyRoot e) (pszKeyName e);
                         RegSetValueExW (hkeyRoot e) (pszKeyName e)
                           (pszValueName e) (dwValueType e) lpData size;
                         RegCloseKey (hkeyRoot e) (pszKeyName e)])
                    (concat (map entry_calls entries))) as [[i status] |].
        -- rewrite through_close_later, <- app_assoc. reflexivity.
        -- reflexivity.
      * rewrite register_entries_failed;
          [|rewrite HRESULT_FROM_WIN32_succeeded; exact Es].
        reflexivity.
    + rewrite register_entries_failed;
        [|rewrite HRESULT_FROM_WIN32_succeeded; exact Ec].
      reflexivity.
Qed.

End RegistryFacts.

(** X14. [CreateRegKeyAndSetValue], once the key is created: for a value
    of type [REG_SZ] with a string or of type [REG_DWORD] it sets the
    value, closes the key and returns the status of [RegSetValueExW] as an
    [HRESULT]; for any other type it returns [E_INVALIDARG] right after
    [RegCreateKeyExW], without [RegCloseKey], so the handle of the key
    stays open (a [REG_SZ] entry without a string makes [wcslen] read
    through a null pointer, also with the handle open). *)
Theorem X14_key_closed_when_supported (sys : Win32) (e : REGISTRY_ENTRY)
  (made : list call) :
  reg_status sys made (RegCreateKeyExW (hkeyRoot e) (pszKeyName e))
    = ERROR_SUCCESS ->
  match entry_value e with
  | Some (lpData, size) =>
      CreateRegKeyAndSetValue sys e made
        = (Returned
             (HRESULT_FROM_WIN32
                (reg_status sys
                   (made ++ [RegCreateKeyExW (hkeyRoot e) (pszKeyName e)])
                   (RegSetValueExW (hkeyRoot e) (pszKeyName e)
                      (pszValueName e) (dwValueType e) lpData size))),
           made ++ entry_calls e)
      /\ open_handles sys made (entry_calls e) 0 = 0
  | None =>
      CreateRegKeyAndSetValue sys e made
        = ((if dwValueType e =? REG_SZ then NullDereference
            else Returned E_INVALIDARG),
           made ++ [RegCreateKeyExW (hkeyRoot e) (pszKeyName e)])
      /\ open_handles sys made
           [RegCreateKeyExW (hkeyRoot e) (pszKeyName e)] 0 = 1
  end.
Proof.
  intros Hcreated.
  assert (Hok : SUCCEEDED
                  (HRESULT_FROM_WIN32
                     (reg_status sys made
                        (RegCreateKeyExW (hkeyRoot e) (pszKeyName e)))) = true)
    by (rewrite Hcreated; reflexivity).
  unfold CreateRegKeyAndSetValue, entry_calls, entry_value.
  cbv zeta. rewrite Hok.
  destruct (dwValueType e =? REG_SZ).
  - destruct (pszData e) as [s|].
    + unfold set_value_and_close. rewrite <- app_assoc.
      split; [reflexivity|].
      cbn [open_handles]. rewrite Hok. lia.
    + split; [reflexivity|].
      cbn [open_handles]. rewrite Hok. reflexivity.
  - destruct (dwValueType e =? REG_DWORD).
    + unfold set_value_and_close. rewrite <- app_assoc.
      split; [reflexivity|].
      cbn [open_handles]. rewrite Hok. lia.
    + split; [reflexivity|].
      cbn [open_handles]. rewrite Hok. reflexivity.
Qed.

(** An entry of type [REG_BINARY] (3) in a registry that accepts every
    call: [E_INVALIDARG], one call, one handle left open. *)
Lemma X14_witness :
  CreateRegKeyAndSetValue (obliging "C:\thumb.dll")
    {| hkeyRoot := HKEY_CURRENT_USER; pszKeyName := "Software\Classes\.rbxl\";
       pszValueName := None; dwValueType := 3; pszData := None;
       dwData := 0 |} []
  = (Returned E_INVALIDARG,
     [RegCreateKeyExW HKEY_CURRENT_USER "Software\Classes\.rbxl\"])
  /\ open_handles (obliging "C:\thumb.dll") []
       [RegCreateKeyExW HKEY_CURRENT_USER "Software\Classes\.rbxl\"] 0 = 1.
Proof.
  exact (X14_key_closed_when_supported (obliging "C:\thumb.dll")
           {| hkeyRoot := HKEY_CURRENT_USER;
              pszKeyName := "Software\Classes\.rbxl\";
              pszValueName := None; dwValueType := 3; pszData := None;
              dwData := 0 |} [] eq_refl).
Defined.

(** X15. [DllRegisterServer] always returns (none of its entries makes
    [CreateRegKeyAndSetValue] read a null string or meet an unsupported
    type), whatever the registry answers; every key it opened is closed
    by then; and the result is [S_OK] or a failure. *)
Theorem X15_register_closes_every_key (sys : Win32) :
  exists hr made,
    DllRegisterServer sys = (Returned hr, made)
    /\ open_handles sys [] made 0 = 0
    /\ (hr = S_OK \/ FAILED hr = true).
Proof.
  unfold DllRegisterServer.
  destruct (GetModuleFileNameW sys) as [n szModuleName].
  destruct (n =? 0).
  - destruct (SUCCEEDED (HRESULT_FROM_WIN32 (GetLastError sys))) eqn:E.
    + eexists; eexists. split; [reflexivity|]. split; [reflexivity|].
      left. apply HRESULT_FROM_WIN32_ok. exact E.
    + eexists; eexists. split; [reflexivity|]. split; [reflexivity|].
      right. unfold SUCCEEDED in E. unfold FAILED.
      apply Z.leb_gt in E. apply Z.ltb_lt. exact E.
  - destruct (register_entries_run sys []
                (registry_entries_supported szModuleName))
      as (hr & k & Hrun & Hh & Hs & Hd).
    rewrite Hrun. cbn [app].
    destruct (SUCCEEDED hr) eqn:E.
    + eexists; eexists. split; [reflexivity|].
      split; [|left; apply (Hs eq_refl)].
      rewrite open_handles_app, Hh. reflexivity.
    + eexists; eexists. split; [reflexivity|]. split; [exact Hh|].
      destruct Hd as [Hd | Hd]; [congruence | right; exact Hd].
Qed.

(** X16. [DllRegisterServer], when the module name is found, is decided
    by the first call the registry refuses among the [RegCreateKeyExW]
    and [RegSetValueExW] calls of a full registration (for each of the
    five entries: create the key, set the value, close the key). If none
    is refused, all the calls are made, then the shell is notified, and
    the result is [S_OK]. Otherwise the calls are made up to the refused
    one, the key is closed if it was the value that was refused, nothing
    else is called, the shell is not notified, and the result is the
    refused call's status as an [HRESULT], a failure. *)
Theorem X16_register_stops_at_first_failure (sys : Win32) :
  fst (GetModuleFileNameW sys) <> 0 ->
  let script := registration (snd (GetModuleFileNameW sys)) in
  DllRegisterServer sys
  = match first_refusal sys [] script with
    | None => (Returned S_OK, script ++ [SHChangeNotify_ASSOCCHANGED])
    | Some (i, status) =>
        (Returned (HRESULT_FROM_WIN32 status), through_close i script)
    end
  /\ forall i status,
       first_refusal sys [] script = Some (i, status) ->
       FAILED (HRESULT_FROM_WIN32 status) = true
       /\ ~ In SHChangeNotify_ASSOCCHANGED (through_close i script).
Proof.
  unfold DllRegisterServer, registration.
  destruct (GetModuleFileNameW sys) as [n szModuleName]. cbn [fst snd].
  intros Hn. cbv zeta. apply Z.eqb_neq in Hn. rewrite Hn.
  rewrite (register_entries_first_refusal sys
             (registry_entries_supported szModuleName)).
  cbn [app].
  assert (Hfail : forall i status,
             first_refusal sys []
               (concat (map entry_calls (rgRegistryEntries szModuleName)))
             = Some (i, status) ->
             FAILED (HRESULT_FROM_WIN32 status) = true).
  { intros i status H. rewrite HRESULT_FROM_WIN32_failed.
    apply negb_true_iff, Z.eqb_neq. exact (first_refusal_status _ _ _ H). }
  split.
  - destruct (first_refusal sys []
                (concat (map entry_calls (rgRegistryEntries szModuleName))))
      as [[i status] |] eqn:E.
    + specialize (Hfail _ _ eq_refl). unfold FAILED in Hfail.
      apply Z.ltb_lt in Hfail. unfold SUCCEEDED.
      replace (0 <=? HRESULT_FROM_WIN32 status) with false
        by (symmetry; apply Z.leb_gt; exact Hfail).
      reflexivity.
    + reflexivity.
  - intros i status H. split; [exact (Hfail _ _ H)|].
    unfold through_close. intros Hin.
    apply in_app_or in Hin as [Hin | Hin].
    + apply (entry_calls_no_notification (rgRegistryEntries szModuleName)).
      exact (in_firstn_in _ _ _ Hin).
    + destruct (nth_error _ (S i)) as [[| | | |] |]; cbn in Hin;
        intuition discriminate.
Qed.

(** In a registry that makes keys but sets no value the registration
    ends with the first entry: its key is made, the value is refused, the
    key is closed, and the result is [ERROR_ACCESS_DENIED] as an
    [HRESULT]. *)
Lemma X16_witness :
  DllRegisterServer no_values
  = (Returned (-2147024891),
     [RegCreateKeyExW HKEY_CURRENT_USER
        "Software\Classes\CLSID\{8ABA9ABD-829D-4E87-AC2C-4A628AB78236}";
      RegSetValueExW HKEY_CURRENT_USER
        "Software\Classes\CLSID\{8ABA9ABD-829D-4E87-AC2C-4A628AB78236}"
        None REG_SZ (wide_string SZ_KISEKITHUMBHANDLER)
        (uint (uint (uint (Z.of_nat (String.length SZ_KISEKITHUMBHANDLER)) + 1)
               * 2));
      RegCloseKey HKEY_CURRENT_USER
        "Software\Classes\CLSID\{8ABA9ABD-829D-4E87-AC2C-4A628AB78236}"]).
Proof.
  assert (Hn : fst (GetModuleFileNameW no_values) <> 0) by discriminate.
  exact (proj1 (X16_register_stops_at_first_failure no_values Hn)).
Defined.

(** In a registry that accepts every call the registration is complete
    and the shell is notified. *)
Remark registration_complete :
  DllRegisterServer (obliging "C:\thumb.dll")
  = (Returned S_OK,
     registration "C:\thumb.dll" ++ [SHChangeNotify_ASSOCCHANGED]).
Proof. reflexivity. Qed.

(** X17. [DllUnregisterServer] in a registry where each of the two trees
    is deleted or is not there ([ERROR_FILE_NOT_FOUND]): both deletions
    are called, in the order of [rgpszKeys], and the result is [S_OK]; a
    handler that was never registered is unregistered without error. *)
Theorem X17_unregister_tolerates_missing_keys (sys : Win32)
  (first second : string) :
  rgpszKeys = [first; second] ->
  (reg_status sys [] (RegDeleteTreeW HKEY_CURRENT_USER first) = ERROR_SUCCESS
   \/ reg_status sys [] (RegDeleteTreeW HKEY_CURRENT_USER first)
      = ERROR_FILE_NOT_FOUND) ->
  (reg_status sys [RegDeleteTreeW HKEY_CURRENT_USER first]
     (RegDeleteTreeW HKEY_CURRENT_USER second) = ERROR_SUCCESS
   \/ reg_status sys [RegDeleteTreeW HKEY_CURRENT_USER first]
        (RegDeleteTreeW HKEY_CURRENT_USER second) = ERROR_FILE_NOT_FOUND) ->
  DllUnregisterServer sys
  = (S_OK, [RegDeleteTreeW HKEY_CURRENT_USER first;
            RegDeleteTreeW HKEY_CURRENT_USER second]).
Proof.
  intros Hkeys H1 H2. unfold DllUnregisterServer. rewrite Hkeys.
  cbn [delete_keys app]. change (SUCCEEDED S_OK) with true. cbv iota zeta.
  destruct H1 as [-> | ->]; cbn [app];
    change (SUCCEEDED S_OK) with true; cbv iota;
    destruct H2 as [-> | ->]; reflexivity.
Qed.

(** Neither key is in the registry. *)
Lemma X17_witness :
  DllUnregisterServer bare
  = (S_OK,
     [RegDeleteTreeW HKEY_CURRENT_USER
        "Software\Classes\CLSID\{8ABA9ABD-829D-4E87-AC2C-4A628AB78236}";
      RegDeleteTreeW HKEY_CURRENT_USER
        "Software\Classes\.rbxl\ShellEx\{e357fccd-a995-4576-b01f-234630154e96}"]).
Proof.
  apply (X17_unregister_tolerates_missing_keys bare eq_refl);
    right; reflexivity.
Defined.

(** X18. [DllUnregisterServer] when the deletion of the first tree fails
    with anything but [ERROR_FILE_NOT_FOUND]: that failure is the result
    and the second tree, the shell extension key of [.rbxl], is not
    touched. *)
Theorem X18_unregister_stops_on_failure (sys : Win32)
  (first second : string) :
  rgpszKeys = [first; second] ->
  FAILED (HRESULT_FROM_WIN32
            (reg_status sys [] (RegDeleteTreeW HKEY_CURRENT_USER first)))
    = true ->
  HRESULT_FROM_WIN32
    (reg_status sys [] (RegDeleteTreeW HKEY_CURRENT_USER first))
    <> HRESULT_FROM_WIN32 ERROR_FILE_NOT_FOUND ->
  DllUnregisterServer sys
  = (HRESULT_FROM_WIN32
       (reg_status sys [] (RegDeleteTreeW HKEY_CURRENT_USER first)),
     [RegDeleteTreeW HKEY_CURRENT_USER first]).
Proof.
  intros Hkeys Hfail Hother. unfold DllUnregisterServer. rewrite Hkeys.
  cbn [delete_keys app]. change (SUCCEEDED S_OK) with true. cbv iota zeta.
  apply Z.eqb_neq in Hother. rewrite Hother.
  unfold FAILED in Hfail. apply Z.ltb_lt in Hfail.
  unfold SUCCEEDED.
  destruct (0 <=? HRESULT_FROM_WIN32
                    (reg_status sys [] (RegDeleteTreeW HKEY_CURRENT_USER first)))
    eqn:E; [apply Z.leb_le in E; lia | reflexivity].
Qed.

(** Access to the registry is denied. *)
Lemma X18_witness :
  DllUnregisterServer denying
  = (HRESULT_FROM_WIN32 5,
     [RegDeleteTreeW HKEY_CURRENT_USER
        "Software\Classes\CLSID\{8ABA9ABD-829D-4E87-AC2C-4A628AB78236}"]).
Proof.
  apply (X18_unregister_stops_on_failure denying eq_refl);
    [reflexivity | discriminate].
Defined.

(** X19. What unregistration leaves of a registration: every key written
    by [DllRegisterServer] lies in a tree that [DllUnregisterServer]
    deletes, except the key of the [.rbxl] extension itself, so its
    [Treatment] value stays in the registry. *)
Theorem X19_unregister_leaves_treatment (szModuleName : string)
  (e : REGISTRY_ENTRY) :
  In e (rgRegistryEntries szModuleName) ->
  unregistered (pszKeyName e)
  = negb (String.eqb (pszKeyName e) "Software\Classes\.rbxl\")
  /\ (unregistered (pszKeyName e) = false ->
      pszValueName e = Some "Treatment"%string).
Proof.
  intros Hin. cbn [rgRegistryEntries In] in Hin.
  destruct Hin as [<- | [<- | [<- | [<- | [<- | []]]]]];
    (split; [vm_compute; reflexivity | vm_compute; intros H; congruence]).
Qed.

(** The entry of the [Treatment] value is the one left behind. *)
Lemma X19_witness :
  In {| hkeyRoot := HKEY_CURRENT_USER;
        pszKeyName := "Software\Classes\.rbxl\"%string;
        pszValueName := Some "Treatment"%string; dwValueType := REG_DWORD;
        pszData := None; dwData := 0 |}
    (rgRegistryEntries "C:\thumb.dll"%string)
  /\ unregistered "Software\Classes\.rbxl\"%string = false.
Proof.
  assert (Hin : In {| hkeyRoot := HKEY_CURRENT_USER;
                      pszKeyName := "Software\Classes\.rbxl\"%string;
                      pszValueName := Some "Treatment"%string;
                      dwValueType := REG_DWORD;
                      pszData := None; dwData := 0 |}
                  (rgRegistryEntries "C:\thumb.dll"%string))
    by (do 3 right; left; reflexivity).
  split; [exact Hin|].
  exact (proj1 (X19_unregister_leaves_treatment Hin)).
Defined.
